(** * TerminalImageViewer: the block-to-glyph quantization engine

    A shallow embedding of [src/tiv.cpp]: the glyph dictionary, the per-block
    colour analysis ([findCharData]), the colour finalisation
    ([createCharData]) and the terminal colour quantizer ([emitTermColor]),
    followed by the properties stated about them.

    Conventions.  C++ [int], [long] and [unsigned int] values are integers
    in [Z]; every operation that can leave the 32-bit unsigned range
    ([<<], [~]) has its wrap-around written out.  An [unsigned char] image
    sample is a [Byte.byte].  Arrays of three [int]s are the record [RGB]. *)

From Stdlib Require Import Strings.Byte Strings.Ascii Strings.String.
From Stdlib Require Import DecimalString.
From Stdlib Require HexadecimalString.
From Stdlib Require Import ZArith List Lia Bool Permutation.
Import ListNotations.
Local Open Scope Z_scope.

(** ** Flags and fixed tables *)

Definition FLAG_FG : Z := 1.
Definition FLAG_BG : Z := 2.
Definition FLAG_MODE_256 : Z := 4.
Definition FLAG_24BIT : Z := 8.
Definition FLAG_NOOPT : Z := 16.
Definition FLAG_TELETEXT : Z := 32.

(** [flags & FLAG] used as a condition. *)
Definition flag_set (flags flag : Z) : bool := negb (Z.land flags flag =? 0).

Definition COLOR_STEP_COUNT : Z := 6.
Definition COLOR_STEPS : list Z := [0; 0x5f; 0x87; 0xaf; 0xd7; 0xff].

Definition GRAYSCALE_STEP_COUNT : Z := 24.
Definition GRAYSCALE_STEPS : list Z :=
  [0x08; 0x12; 0x1c; 0x26; 0x30; 0x3a; 0x44; 0x4e; 0x58; 0x62; 0x6c; 0x76;
   0x80; 0x8a; 0x94; 0x9e; 0xa8; 0xb2; 0xbc; 0xc6; 0xd0; 0xda; 0xe4; 0xee].

(** The interleaved (bitmap, code point) table, in source order, with its
    two end markers [0, 0] and [0, 1]. *)
Definition BITMAPS : list Z :=
  [
    0x00000000; 0x00a0; 0x0000000f; 0x2581; 0x000000ff; 0x2582;
    0x00000fff; 0x2583; 0x0000ffff; 0x2584; 0x000fffff; 0x2585;
    0x00ffffff; 0x2586; 0x0fffffff; 0x2587; 0xeeeeeeee; 0x258a;
    0xcccccccc; 0x258c; 0x88888888; 0x258e; 0x0000cccc; 0x2596;
    0x00003333; 0x2597; 0xcccc0000; 0x2598; 0xcccc3333; 0x259a;
    0x33330000; 0x259d; 0x000ff000; 0x2501; 0x66666666; 0x2503;
    0x00077666; 0x250f; 0x000ee666; 0x2513; 0x66677000; 0x2517;
    0x666ee000; 0x251b; 0x66677666; 0x2523; 0x666ee666; 0x252b;
    0x000ff666; 0x2533; 0x666ff000; 0x253b; 0x666ff666; 0x254b;
    0x000cc000; 0x2578; 0x00066000; 0x2579; 0x00033000; 0x257a;
    0x00066000; 0x257b; 0x06600660; 0x254f; 0x000f0000; 0x2500;
    0x0000f000; 0x2500; 0x44444444; 0x2502; 0x22222222; 0x2502;
    0x000e0000; 0x2574; 0x0000e000; 0x2574; 0x44440000; 0x2575;
    0x22220000; 0x2575; 0x00030000; 0x2576; 0x00003000; 0x2576;
    0x00004444; 0x2577; 0x00002222; 0x2577; 0x44444444; 0x23a2;
    0x22222222; 0x23a5; 0x0f000000; 0x23ba; 0x00f00000; 0x23bb;
    0x00000f00; 0x23bc; 0x000000f0; 0x23bd; 0x00066000; 0x25aa; 0; 0;
    0xccc00000; 0xfb00; 0x33300000; 0xfb01; 0xfff00000; 0xfb02;
    0x000cc000; 0xfb03; 0xccccc000; 0xfb04; 0x333cc000; 0xfb05;
    0xfffcc000; 0xfb06; 0x00033000; 0xfb07; 0xccc33000; 0xfb08;
    0x33333000; 0xfb09; 0xfff33000; 0xfb0a; 0x000ff000; 0xfb0b;
    0xcccff000; 0xfb0c; 0x333ff000; 0xfb0d; 0xfffff000; 0xfb0e;
    0x00000ccc; 0xfb0f; 0xccc00ccc; 0xfb10; 0x33300ccc; 0xfb11;
    0xfff00ccc; 0xfb12; 0x000ccccc; 0xfb13; 0x333ccccc; 0xfb14;
    0xfffccccc; 0xfb15; 0x00033ccc; 0xfb16; 0xccc33ccc; 0xfb17;
    0x33333ccc; 0xfb18; 0xfff33ccc; 0xfb19; 0x000ffccc; 0xfb1a;
    0xcccffccc; 0xfb1b; 0x333ffccc; 0xfb1c; 0xfffffccc; 0xfb1d;
    0x00000333; 0xfb1e; 0xccc00333; 0xfb1f; 0x33300333; 0x1b20;
    0xfff00333; 0x1b21; 0x000cc333; 0x1b22; 0xccccc333; 0x1b23;
    0x333cc333; 0x1b24; 0xfffcc333; 0x1b25; 0x00033333; 0x1b26;
    0xccc33333; 0x1b27; 0xfff33333; 0x1b28; 0x000ff333; 0x1b29;
    0xcccff333; 0x1b2a; 0x333ff333; 0x1b2b; 0xfffff333; 0x1b2c;
    0x00000fff; 0x1b2d; 0xccc00fff; 0x1b2e; 0x33300fff; 0x1b2f;
    0xfff00fff; 0x1b30; 0x000ccfff; 0x1b31; 0xcccccfff; 0x1b32;
    0x333ccfff; 0x1b33; 0xfffccfff; 0x1b34; 0x00033fff; 0x1b35;
    0xccc33fff; 0x1b36; 0x33333fff; 0x1b37; 0xfff33fff; 0x1b38;
    0x000fffff; 0x1b39; 0xcccfffff; 0x1b3a; 0x333fffff; 0x1b3b; 0; 1
  ].

(** ** 32-bit unsigned arithmetic *)

Definition wrap32 (x : Z) : Z := x mod 2 ^ 32.

(** [~x] on an [unsigned int]. *)
Definition not32 (x : Z) : Z := wrap32 (Z.lnot x).

(** [x << 1] on an [unsigned int]. *)
Definition shl1_32 (x : Z) : Z := wrap32 (Z.shiftl x 1).

(** Conversion of an [unsigned int] argument to an [int] parameter. *)
Definition to_int32 (x : Z) : Z := (x + 2 ^ 31) mod 2 ^ 32 - 2 ^ 31.

Definition bit_positions : list Z := map Z.of_nat (seq 0 32).

(** [std::bitset<32>(x).count()]. *)
Definition popcount32 (x : Z) : Z :=
  fold_right (fun i n => (if Z.testbit x i then 1 else 0) + n) 0 bit_positions.

(** ** The glyph search of [findCharData] *)

Record Best : Set := mkBest {
  best_diff : Z;
  best_pattern : Z;
  codepoint : Z;
  inverted : bool
}.

(** The values the search starts from: the lower half block. *)
Definition initial_best : Best :=
  {| best_diff := 8; best_pattern := 0x0000ffff; codepoint := 0x2584;
     inverted := false |}.

(** One pass of the inner [j] loop: [entry] is [BITMAPS[i]], [cp] is
    [BITMAPS[i + 1]], [pattern] the pattern being compared. *)
Definition compare_pattern (entry cp pattern bits : Z) (st : Best) : Best :=
  let diff := popcount32 (Z.lxor pattern bits) in
  if diff <? best_diff st then
    {| best_diff := diff; best_pattern := entry; codepoint := cp;
       inverted := negb (entry =? pattern) |}
  else st.

(** Both passes of the inner loop: the pattern, then its complement. *)
Definition compare_entry (entry cp bits : Z) (st : Best) : Best :=
  compare_pattern entry cp (not32 entry) bits
    (compare_pattern entry cp entry bits st).

(** The outer loop over the table from index [i] on, where [tbl] is the
    table from there.  It stops at the end marker; reading past the end of
    the table (which the C++ loop does not guard against) is [None]. *)
Fixpoint scan_table (tbl : list Z) (end_marker bits : Z) (st : Best)
  : option Best :=
  match tbl with
  | entry :: cp :: rest =>
      if cp =? end_marker then Some st
      else if cp <? 32 then scan_table rest end_marker bits st
      else scan_table rest end_marker bits (compare_entry entry cp bits st)
  | _ => None
  end.

Definition end_marker (flags : Z) : Z :=
  if flag_set flags FLAG_TELETEXT then 1 else 0.

Definition findGlyph (bits flags : Z) : option Best :=
  scan_table BITMAPS (end_marker flags) bits initial_best.

(** ** Images, pixels and blocks *)

(** [std::array<int, 3>] and [int[3]]: one value per colour channel. *)
Record RGB : Set := mkRGB { red : Z; green : Z; blue : Z }.

Definition chan (c : RGB) (i : Z) : Z :=
  if i =? 0 then red c else if i =? 1 then green c else blue c.

(** The indices of the loops [for (int i = 0; i < 3; i++)]. *)
Definition channels : list Z := [0; 1; 2].

Definition rgb_map2 (f : Z -> Z -> Z) (a b : RGB) : RGB :=
  mkRGB (f (red a) (red b)) (f (green a) (green b)) (f (blue a) (blue b)).

(** [cimg_library::CImg<unsigned char>], read as [image(x, y, 0, i)]. *)
Definition Image : Set := Z -> Z -> Z -> byte.

Definition sample (image : Image) (x y i : Z) : Z :=
  Z.of_N (Byte.to_N (image x y i)).

Definition pixel (image : Image) (x y : Z) : RGB :=
  mkRGB (sample image x y 0) (sample image x y 1) (sample image x y 2).

(** The order in which [for y < 8] / [for x < 4] visits a block. *)
Definition block_coords : list (Z * Z) :=
  flat_map (fun y => map (fun x => (x, y)) [0; 1; 2; 3])
           [0; 1; 2; 3; 4; 5; 6; 7].

(** The 32 pixels of the block at [(x0, y0)], in scan order. *)
Definition block_pixels (image : Image) (x0 y0 : Z) : list RGB :=
  map (fun xy => pixel image (x0 + fst xy) (y0 + snd xy)) block_coords.

Record CharData : Set := mkCharData {
  fgColor : RGB;
  bgColor : RGB;
  codePoint : Z
}.

(** ** [createCharData] *)

Record Accum : Set := mkAccum {
  acc_fg : RGB;
  acc_bg : RGB;
  fg_count : Z;
  bg_count : Z;
  mask : Z
}.

(** The body of the pixel loop; [pattern] is an [int], converted to
    [unsigned int] by [pattern & mask]. *)
Definition accumulate (pattern : Z) (a : Accum) (p : RGB) : Accum :=
  let a' :=
    if negb (Z.land (wrap32 pattern) (mask a) =? 0) then
      mkAccum (rgb_map2 Z.add (acc_fg a) p) (acc_bg a)
              (fg_count a + 1) (bg_count a) (mask a)
    else
      mkAccum (acc_fg a) (rgb_map2 Z.add (acc_bg a) p)
              (fg_count a) (bg_count a + 1) (mask a) in
  mkAccum (acc_fg a') (acc_bg a') (fg_count a') (bg_count a')
          (Z.shiftr (mask a') 1).

Definition initial_accum : Accum :=
  mkAccum (mkRGB 0 0 0) (mkRGB 0 0 0) 0 0 0x80000000.

(** [color[i] /= count] for the three channels, guarded by [count != 0]. *)
Definition average (sum : RGB) (count : Z) : RGB :=
  if count =? 0 then sum
  else mkRGB (Z.quot (red sum) count) (Z.quot (green sum) count)
             (Z.quot (blue sum) count).

Definition createCharBlock (px : list RGB) (cp pattern : Z) : CharData :=
  let a := fold_left (accumulate pattern) px initial_accum in
  {| fgColor := average (acc_fg a) (fg_count a);
     bgColor := average (acc_bg a) (bg_count a);
     codePoint := cp |}.

Definition createCharData (image : Image) (x0 y0 cp pattern : Z) : CharData :=
  createCharBlock (block_pixels image x0 y0) cp pattern.

(** ** The block analysis of [findCharData] *)

(** [count_per_color[color]++] on a [std::map<long, int>], kept as the
    list of its (key, value) pairs in increasing key order. *)
Fixpoint map_incr (k : Z) (m : list (Z * Z)) : list (Z * Z) :=
  match m with
  | [] => [(k, 1)]
  | (k', v) :: m' =>
      if k <? k' then (k, 1) :: m
      else if k =? k' then (k', v + 1) :: m'
      else (k', v) :: map_incr k m'
  end.

(** [insert] on a [std::multimap<int, long>]: the new pair goes after all
    pairs whose key is not greater. *)
Fixpoint multimap_insert (k v : Z) (m : list (Z * Z)) : list (Z * Z) :=
  match m with
  | [] => [(k, v)]
  | (k', v') :: m' =>
      if k <? k' then (k, v) :: m else (k', v') :: multimap_insert k v m'
  end.

(** [color = (color << 8) | d] over the three channels. *)
Definition color_key (p : RGB) : Z :=
  fold_left (fun color i => Z.lor (Z.shiftl color 8) (chan p i)) channels 0.

Record Stats : Set := mkStats {
  chan_min : RGB;
  chan_max : RGB;
  count_per_color : list (Z * Z)
}.

Definition scan_pixel (s : Stats) (p : RGB) : Stats :=
  {| chan_min := rgb_map2 Z.min (chan_min s) p;
     chan_max := rgb_map2 Z.max (chan_max s) p;
     count_per_color := map_incr (color_key p) (count_per_color s) |}.

Definition initial_stats : Stats :=
  {| chan_min := mkRGB 255 255 255; chan_max := mkRGB 0 0 0;
     count_per_color := [] |}.

Definition block_stats (px : list RGB) : Stats :=
  fold_left scan_pixel px initial_stats.

(** The multimap from counts to colours, filled in key order of the map. *)
Definition color_per_count (cpc : list (Z * Z)) : list (Z * Z) :=
  fold_left (fun mm e => multimap_insert (snd e) (fst e) mm) cpc [].

(** [count2], [max_count_color_1] and [max_count_color_2], read from the
    multimap in reverse.  A block has pixels, so the multimap is not empty;
    the first case is never taken for one. *)
Definition top_two (mm : list (Z * Z)) : Z * Z * Z :=
  match rev mm with
  | [] => (0, 0, 0)
  | (n1, c1) :: rest =>
      match rest with
      | [] => (n1, c1, c1)
      | (n2, c2) :: _ => (n1 + n2, c1, c2)
      end
  end.

Definition block_top_two (px : list RGB) : Z * Z * Z :=
  top_two (color_per_count (count_per_color (block_stats px))).

Definition block_count2 (px : list RGB) : Z := fst (fst (block_top_two px)).
Definition max_count_color_1 (px : list RGB) : Z := snd (fst (block_top_two px)).
Definition max_count_color_2 (px : list RGB) : Z := snd (block_top_two px).

Definition block_direct (px : list RGB) : bool :=
  block_count2 px >? Z.quot (8 * 4) 2.

(** [(color >> shift) & 255] with [shift = 16 - 8 * i]. *)
Definition unpack (color i : Z) : Z := Z.land (Z.shiftr color (16 - 8 * i)) 255.

Definition unpack_rgb (color : Z) : RGB :=
  mkRGB (unpack color 0) (unpack color 1) (unpack color 2).

(** [d1] (or [d2]): squared distance of a pixel to a packed colour. *)
Definition sq_dist (color : Z) (p : RGB) : Z :=
  fold_left (fun d i =>
               let c1 := unpack color i in
               let c := chan p i in
               d + (c1 - c) * (c1 - c)) channels 0.

(** [bits = bits << 1; if (cond) bits |= 1;] over the block. *)
Definition collect_bits (cond : RGB -> bool) (px : list RGB) : Z :=
  fold_left (fun bits p =>
               let bits := shl1_32 bits in
               if cond p then Z.lor bits 1 else bits) px 0.

Definition direct_bits (c1 c2 : Z) (px : list RGB) : Z :=
  collect_bits (fun p => sq_dist c1 p >? sq_dist c2 p) px.

(** The loop choosing [splitIndex] and [bestSplit]. *)
Definition best_split (mn mx : RGB) : Z * Z :=
  fold_left (fun sb i =>
               if chan mx i - chan mn i >? snd sb
               then (i, chan mx i - chan mn i) else sb) channels (0, 0).

Definition splitIndex (px : list RGB) : Z :=
  fst (best_split (chan_min (block_stats px)) (chan_max (block_stats px))).

Definition bestSplit (px : list RGB) : Z :=
  snd (best_split (chan_min (block_stats px)) (chan_max (block_stats px))).

Definition splitValue (px : list RGB) : Z :=
  chan (chan_min (block_stats px)) (splitIndex px) + Z.quot (bestSplit px) 2.

Definition split_bits (px : list RGB) : Z :=
  collect_bits (fun p => chan p (splitIndex px) >? splitValue px) px.

Definition block_bits (px : list RGB) : Z :=
  if block_direct px
  then direct_bits (max_count_color_1 px) (max_count_color_2 px) px
  else split_bits px.

(** The result of the [if (direct)] branch at the end of [findCharData]. *)
Definition direct_result (c1 c2 : Z) (g : Best) : CharData :=
  let c1' := if inverted g then c2 else c1 in
  let c2' := if inverted g then c1 else c2 in
  {| fgColor := unpack_rgb c2'; bgColor := unpack_rgb c1';
     codePoint := codepoint g |}.

Definition findCharBlock (px : list RGB) (flags : Z) : option CharData :=
  match findGlyph (block_bits px) flags with
  | None => None
  | Some g =>
      Some (if block_direct px
            then direct_result (max_count_color_1 px) (max_count_color_2 px) g
            else createCharBlock px (codepoint g) (to_int32 (best_pattern g)))
  end.

Definition findCharData (image : Image) (x0 y0 flags : Z) : option CharData :=
  findCharBlock (block_pixels image x0 y0) flags.

(** The choice made for each block by [emitImage] and [printImage]. *)
Definition cellCharData (image : Image) (x y flags : Z) : option CharData :=
  if flag_set flags FLAG_NOOPT
  then Some (createCharData image x y 0x2584 0x0000ffff)
  else findCharData image x y flags.

(** ** [clamp_byte], [best_index] and [emitTermColor] *)

Definition clamp_byte (value : Z) : Z :=
  if value <? 0 then 0 else if value >? 255 then 255 else value.

(** The loop of [best_index] from index [i] on; [steps] is the table from
    there. *)
Fixpoint best_index_from (value : Z) (steps : list Z) (i result diff0 : Z)
  : Z :=
  match steps with
  | [] => result
  | s :: rest =>
      let diff := Z.abs (s - value) in
      if diff <? diff0
      then best_index_from value rest (i + 1) i diff
      else best_index_from value rest (i + 1) result diff0
  end.

Definition best_index (value : Z) (STEPS : list Z) (count : Z) : Z :=
  match firstn (Z.to_nat count) STEPS with
  | [] => 0
  | s0 :: rest => best_index_from value rest 1 0 (Z.abs (s0 - value))
  end.

(** What an escape sequence carries: the selector (38 or 48) and either
    three channel values or one palette index. *)
Inductive TermColor : Set :=
| TrueColor (selector r g b : Z)
| PaletteColor (selector color_index : Z).

Definition decimal (n : Z) : string := NilZero.string_of_int (Z.to_int n).

Definition ESC : string := String (ascii_of_nat 27) EmptyString.

(** The two [std::format] calls. *)
Definition format_term_color (c : TermColor) : string :=
  match c with
  | TrueColor sel r g b =>
      (ESC ++ "[" ++ decimal sel ++ ";2;" ++ decimal r ++ ";" ++ decimal g
           ++ ";" ++ decimal b ++ "m")%string
  | PaletteColor sel idx =>
      (ESC ++ "[" ++ decimal sel ++ ";5;" ++ decimal idx ++ "m")%string
  end.

Section Quantizer.

(** The two floating-point computations of [emitTermColor] are taken as
    they come: [luma r g b] is the [int] obtained from
    [std::round(r * 0.2989f + g * 0.5870f + b * 0.1140f)], and
    [cube_closer rq gq bq grq r g b] is the outcome of the [double]
    comparison of the two weighted errors. *)
Variable luma : Z -> Z -> Z -> Z.
Variable cube_closer : Z -> Z -> Z -> Z -> Z -> Z -> Z -> bool.

Definition termColor (flags r g b : Z) : TermColor :=
  let r := clamp_byte r in
  let g := clamp_byte g in
  let b := clamp_byte b in
  let bg := flag_set flags FLAG_BG in
  if negb (flag_set flags FLAG_MODE_256) then
    TrueColor (if bg then 48 else 38) r g b
  else
    let ri := best_index r COLOR_STEPS COLOR_STEP_COUNT in
    let gi := best_index g COLOR_STEPS COLOR_STEP_COUNT in
    let bi := best_index b COLOR_STEPS COLOR_STEP_COUNT in
    let rq := nth (Z.to_nat ri) COLOR_STEPS 0 in
    let gq := nth (Z.to_nat gi) COLOR_STEPS 0 in
    let bq := nth (Z.to_nat bi) COLOR_STEPS 0 in
    let gray := luma r g b in
    let gri := best_index gray GRAYSCALE_STEPS GRAYSCALE_STEP_COUNT in
    let grq := nth (Z.to_nat gri) GRAYSCALE_STEPS 0 in
    let color_index :=
      if cube_closer rq gq bq grq r g b
      then 16 + 36 * ri + 6 * gi + bi
      else 232 + gri in
    PaletteColor (if bg then 48 else 38) color_index.

Definition emitTermColor (flags r g b : Z) : string :=
  format_term_color (termColor flags r g b).

End Quantizer.

(** ** Vocabulary of the properties *)

(** The table as (pattern, code point) pairs. *)
Fixpoint table_entries (tbl : list Z) : list (Z * Z) :=
  match tbl with
  | entry :: cp :: rest => (entry, cp) :: table_entries rest
  | _ => []
  end.

Fixpoint before_marker (marker : Z) (es : list (Z * Z)) : list (Z * Z) :=
  match es with
  | [] => []
  | e :: rest => if snd e =? marker then [] else e :: before_marker marker rest
  end.

(** Whether the scan meets the end marker before the table ends. *)
Fixpoint marked (marker : Z) (tbl : list Z) : bool :=
  match tbl with
  | _ :: cp :: rest => (cp =? marker) || marked marker rest
  | _ => false
  end.

Definition non_sentinel (e : Z * Z) : bool := negb (snd e <? 32).

(** The entries the scan goes through for a flag setting, and those among
    them that are not sentinels. *)
Definition active_range (flags : Z) : list (Z * Z) :=
  before_marker (end_marker flags) (table_entries BITMAPS).

Definition candidates (flags : Z) : list (Z * Z) :=
  filter non_sentinel (active_range flags).

Definition standard_range : list (Z * Z) :=
  before_marker 0 (table_entries BITMAPS).

(** The entries between the two end markers. *)
Definition extended_range : list (Z * Z) :=
  skipn (S (length standard_range)) (before_marker 1 (table_entries BITMAPS)).

Definition hamming (a b : Z) : Z := popcount32 (Z.lxor a b).

(** Distance of an entry to a mask, taking the smaller of the distances to
    the mask and to its complement. *)
Definition entry_dist (pattern bits : Z) : Z :=
  Z.min (hamming pattern bits) (hamming pattern (not32 bits)).

Definition scan_entries (bits : Z) (es : list (Z * Z)) (st : Best) : Best :=
  fold_left (fun st e => compare_entry (fst e) (snd e) bits st) es st.

(** Best-match optimality as the specification words it: the selected entry
    is at least as close as every non-sentinel entry of the range. *)
Definition best_match_optimal (bits flags : Z) : Prop :=
  exists g, findGlyph bits flags = Some g /\
    forall e, In e (candidates flags) ->
      entry_dist (best_pattern g) bits <= entry_dist (fst e) bits.

(** The search as the specification words it: on a strictly smaller
    difference it records the pattern actually compared. *)
Definition compare_pattern_as_specified (cp pattern bits : Z) (inv : bool)
    (st : Best) : Best :=
  let diff := hamming pattern bits in
  if diff <? best_diff st then
    {| best_diff := diff; best_pattern := pattern; codepoint := cp;
       inverted := inv |}
  else st.

Definition compare_entry_as_specified (bits : Z) (st : Best) (e : Z * Z)
  : Best :=
  compare_pattern_as_specified (snd e) (not32 (fst e)) bits true
    (compare_pattern_as_specified (snd e) (fst e) bits false st).

Definition findGlyph_as_specified (bits flags : Z) : Best :=
  fold_left (compare_entry_as_specified bits) (candidates flags) initial_best.

Definition records_compared_pattern (bits flags : Z) : Prop :=
  findGlyph bits flags = Some (findGlyph_as_specified bits flags).

(** The pattern the winning comparison used, recovered from the result. *)
Definition compared_pattern (g : Best) : Z :=
  if inverted g then not32 (best_pattern g) else best_pattern g.

Definition extended_codepoints : list Z := map snd extended_range.

Definition RGB_eqb (a b : RGB) : bool :=
  (red a =? red b) && (green a =? green b) && (blue a =? blue b).

(** Number of pixels of a block with exactly the colour [c]. *)
Definition freq (px : list RGB) (c : RGB) : Z :=
  Z.of_nat (length (filter (RGB_eqb c) px)).

(** Number of occurrences of a key in a list of keys. *)
Definition count_key (k : Z) (ks : list Z) : Z :=
  Z.of_nat (length (filter (Z.eqb k) ks)).

(** Value stored under a key in a map kept as a list of pairs, 0 if none. *)
Fixpoint assoc (k : Z) (m : list (Z * Z)) : Z :=
  match m with
  | [] => 0
  | (k', v) :: m' => if k =? k' then v else assoc k m'
  end.

(** Keys strictly increasing (a [std::map]). *)
Fixpoint keys_increasing (m : list (Z * Z)) : Prop :=
  match m with
  | [] => True
  | e :: m' => Forall (fun e' => fst e < fst e') m' /\ keys_increasing m'
  end.

(** Keys non-decreasing (a [std::multimap]). *)
Fixpoint keys_sorted (m : list (Z * Z)) : Prop :=
  match m with
  | [] => True
  | e :: m' => Forall (fun e' => fst e <= fst e') m' /\ keys_sorted m'
  end.

Definition swap_pair (e : Z * Z) : Z * Z := (snd e, fst e).

Definition byte_range (p : RGB) : Prop :=
  0 <= red p <= 255 /\ 0 <= green p <= 255 /\ 0 <= blue p <= 255.

Definition is_chan_min (px : list RGB) (i lo : Z) : Prop :=
  (forall p, In p px -> lo <= chan p i) /\ exists p, In p px /\ chan p i = lo.

Definition is_chan_max (px : list RGB) (i hi : Z) : Prop :=
  (forall p, In p px -> chan p i <= hi) /\ exists p, In p px /\ chan p i = hi.

Definition black : RGB := mkRGB 0 0 0.

(** The pixels of a block that a glyph pattern puts in the foreground
    ([fg = true]) or background bucket: pixel [i] in scan order goes by bit
    [31 - i] of the pattern. *)
Fixpoint bucket_from (i : Z) (fg : bool) (pattern : Z) (px : list RGB)
  : list RGB :=
  match px with
  | [] => []
  | p :: rest =>
      if Bool.eqb (Z.testbit pattern (31 - i)) fg
      then p :: bucket_from (i + 1) fg pattern rest
      else bucket_from (i + 1) fg pattern rest
  end.

Definition bucket (fg : bool) (pattern : Z) (px : list RGB) : list RGB :=
  bucket_from 0 fg pattern px.

Definition rgb_sum (l : list RGB) : RGB :=
  fold_right (rgb_map2 Z.add) black l.

(** Colour of a bucket as the specification words it: black when the
    bucket is empty, else the truncated per-channel average. *)
Definition bucket_color (members : list RGB) : RGB :=
  match members with
  | [] => black
  | _ :: _ =>
      let n := Z.of_nat (length members) in
      mkRGB (Z.quot (red (rgb_sum members)) n)
            (Z.quot (green (rgb_sum members)) n)
            (Z.quot (blue (rgb_sum members)) n)
  end.

(** Images used to exercise the statements. *)
Definition flat_image : Image :=
  fun _ _ i => if i =? 0 then "010"%byte else if i =? 1 then "020"%byte
               else "030"%byte.

Definition gradient_image : Image :=
  fun x y i =>
    match Byte.of_N (Z.to_N ((x + 4 * y) * 8 + i)) with
    | Some b => b
    | None => "000"%byte
    end.

(** A block that gets darker from the first pixel to the last. *)
Definition fading_image : Image :=
  fun x y i =>
    match Byte.of_N (Z.to_N (255 - ((x + 4 * y) * 8 + i))) with
    | Some b => b
    | None => "000"%byte
    end.

(** ** [emitCodepoint] and [printCodepoint] *)

(** What one call writes: characters to [std::cout], given as the values
    of the bytes, or a message to [std::cerr]. *)
Inductive Written : Set :=
| Chars (bytes : list Z)
| Error (msg : string).

(** [static_cast<char>(v)], as the byte that reaches the stream. *)
Definition char_cast (v : Z) : Z := v mod 256.

(** The branches shared by [emitCodepoint] and [printCodepoint]; [err] is
    what the last branch does. *)
Definition codepoint_branches (codepoint : Z) (err : Written) : Written :=
  if codepoint <? 128 then
    Chars [char_cast codepoint]
  else if codepoint <? 0x7ff then
    Chars [char_cast (Z.lor 0xc0 (Z.shiftr codepoint 6));
           char_cast (Z.lor 0x80 (Z.land codepoint 0x3f))]
  else if codepoint <? 0xffff then
    Chars [char_cast (Z.lor 0xe0 (Z.shiftr codepoint 12));
           char_cast (Z.lor 0x80 (Z.land (Z.shiftr codepoint 6) 0x3f));
           char_cast (Z.lor 0x80 (Z.land codepoint 0x3f))]
  else if codepoint <? 0x10ffff then
    Chars [char_cast (Z.lor 0xf0 (Z.shiftr codepoint 18));
           char_cast (Z.lor 0x80 (Z.land (Z.shiftr codepoint 12) 0x3f));
           char_cast (Z.lor 0x80 (Z.land (Z.shiftr codepoint 6) 0x3f));
           char_cast (Z.lor 0x80 (Z.land codepoint 0x3f))]
  else err.

Definition emitCodepoint (codepoint : Z) : Written :=
  codepoint_branches codepoint (Error "ERROR").

(** [{:08x}] for a non-negative [int]: lower-case hexadecimal, padded with
    zeros to eight characters. *)
Definition hex8 (n : Z) : string :=
  let digits := HexadecimalString.NilZero.string_of_uint
                  (N.to_hex_uint (Z.to_N n)) in
  (string_of_list_ascii
     (repeat "0"%char (8 - String.length digits)) ++ digits)%string.

Definition printCodepoint (codepoint : Z) : Written :=
  codepoint_branches codepoint
    (Error ("Error: Codepoint 0x" ++ hex8 codepoint
            ++ " is out of range, skipping this pixel")%string).

(** ** [emitImage] and [printImage] *)

(** A [CImg<unsigned char>] with its [width()] and [height()]. *)
Record CImg : Set := mkCImg {
  img_width : Z;
  img_height : Z;
  img_data : Image
}.

(** The values [v] takes in [for (v = start; v <= limit; v += step)],
    the loop being followed for at most [fuel] rounds. *)
Fixpoint loop_values (fuel : nat) (v limit step : Z) : list Z :=
  match fuel with
  | O => []
  | S fuel' =>
      if v <=? limit then v :: loop_values fuel' (v + step) limit step
      else []
  end.

(** [for (int y = 0; y <= image.height() - 8; y += 8)]. *)
Definition block_rows (image : CImg) : list Z :=
  loop_values (Z.to_nat (img_height image)) 0 (img_height image - 8) 8.

(** [for (int x = 0; x <= image.width() - 4; x += 4)]. *)
Definition block_columns (image : CImg) : list Z :=
  loop_values (Z.to_nat (img_width image)) 0 (img_width image - 4) 4.

(** One piece of output: the escape of one [emitTermColor] call, the
    glyph of one cell, or the text that ends a row. *)
Inductive Output : Set :=
| OutColor (c : TermColor)
| OutGlyph (w : Written)
| OutReset.

(** The [CharData lastCharData;] both functions start from; its code point
    is never read. *)
Definition initial_CharData : CharData :=
  {| fgColor := mkRGB 0 0 0; bgColor := mkRGB 0 0 0; codePoint := 0 |}.

Definition bytes_text (bytes : list Z) : string :=
  string_of_list_ascii (map (fun b => ascii_of_N (Z.to_N b)) bytes).

(** The characters a piece of output adds to the stream or string. *)
Definition output_text (o : Output) : string :=
  match o with
  | OutColor c => format_term_color c
  | OutGlyph (Chars bytes) => bytes_text bytes
  | OutGlyph (Error _) => EmptyString
  | OutReset => (ESC ++ "[0m" ++ String (ascii_of_nat 10) EmptyString)%string
  end.

Section Renderer.

Variable luma : Z -> Z -> Z -> Z.
Variable cube_closer : Z -> Z -> Z -> Z -> Z -> Z -> Z -> bool.

(** The escape [emitTermColor(flags, c[0], c[1], c[2])] produces. *)
Definition color_escape (flags : Z) (c : RGB) : TermColor :=
  termColor luma cube_closer flags (red c) (green c) (blue c).

(** The body of the inner loop after [charData] is known; [glyph] is how
    the function at hand writes the code point. *)
Definition cell_output (glyph : Z -> Written) (flags x : Z)
    (charData lastCharData : CharData) : list Output :=
  (if (x =? 0) || negb (RGB_eqb (bgColor charData) (bgColor lastCharData))
   then [OutColor (color_escape (Z.lor flags FLAG_BG) (bgColor charData))]
   else [])
  ++
  (if (x =? 0) || negb (RGB_eqb (fgColor charData) (fgColor lastCharData))
   then [OutColor (color_escape (Z.lor flags FLAG_FG) (fgColor charData))]
   else [])
  ++ [OutGlyph (glyph (codePoint charData))].

(** One round of the inner loop: the output so far and [lastCharData]. *)
Definition cell_step (glyph : Z -> Written) (image : CImg) (flags y : Z)
    (st : option (list Output * CharData)) (x : Z)
  : option (list Output * CharData) :=
  match st with
  | None => None
  | Some (out, lastCharData) =>
      match cellCharData (img_data image) x y flags with
      | None => None
      | Some charData =>
          Some (out ++ cell_output glyph flags x charData lastCharData,
                charData)
      end
  end.

(** One round of the outer loop. *)
Definition row_step (glyph : Z -> Written) (image : CImg) (flags : Z)
    (st : option (list Output * CharData)) (y : Z)
  : option (list Output * CharData) :=
  match fold_left (cell_step glyph image flags y) (block_columns image) st with
  | None => None
  | Some (out, lastCharData) => Some (out ++ [OutReset], lastCharData)
  end.

Definition render_image (glyph : Z -> Written) (image : CImg) (flags : Z)
  : option (list Output) :=
  option_map fst
    (fold_left (row_step glyph image flags) (block_rows image)
               (Some ([], initial_CharData))).

(** [printImage]: the glyph goes through [printCodepoint]. *)
Definition printImage (image : CImg) (flags : Z) : option (list Output) :=
  render_image printCodepoint image flags.

(** [emitImage]: [ret += (charData.codePoint)] appends the [int] as one
    [char]; the result is the string built. *)
Definition emitImage (image : CImg) (flags : Z) : option string :=
  option_map (fun out => String.concat EmptyString (map output_text out))
    (render_image (fun cp => Chars [char_cast cp]) image flags).

End Renderer.

(** ** Vocabulary of the further properties *)

(** Length of the shortest UTF-8 form of a code point. *)
Definition utf8_length (cp : Z) : Z :=
  if cp <? 0x80 then 1 else if cp <? 0x800 then 2
  else if cp <? 0x10000 then 3 else 4.

Definition is_continuation (b : Z) : bool := (0x80 <=? b) && (b <? 0xc0).

(** A UTF-8 reader that takes a sequence by the shape of its first byte
    and does not insist on the shortest form. *)
Definition utf8_decode (bytes : list Z) : option Z :=
  match bytes with
  | [b0] => if (0 <=? b0) && (b0 <? 0x80) then Some b0 else None
  | [b0; b1] =>
      if (0xc0 <=? b0) && (b0 <? 0xe0) && is_continuation b1
      then Some ((b0 - 0xc0) * 64 + (b1 - 0x80)) else None
  | [b0; b1; b2] =>
      if (0xe0 <=? b0) && (b0 <? 0xf0) && is_continuation b1
         && is_continuation b2
      then Some ((b0 - 0xe0) * 4096 + (b1 - 0x80) * 64 + (b2 - 0x80))
      else None
  | [b0; b1; b2; b3] =>
      if (0xf0 <=? b0) && (b0 <? 0xf8) && is_continuation b1
         && is_continuation b2 && is_continuation b3
      then Some ((b0 - 0xf0) * 262144 + (b1 - 0x80) * 4096
                 + (b2 - 0x80) * 64 + (b3 - 0x80))
      else None
  | _ => None
  end.


Definition selector (c : TermColor) : Z :=
  match c with
  | TrueColor sel _ _ _ => sel
  | PaletteColor sel _ => sel
  end.

(** What a terminal shows for one glyph: the background and foreground set
    by the escapes since the last reset, and the glyph written. *)
Record Shown : Set := mkShown {
  shown_bg : option TermColor;
  shown_fg : option TermColor;
  shown_glyph : Written
}.

(** The glyphs a terminal shows for a sequence of output, starting with
    the given colours: selector 48 sets the background, another selector
    the foreground, and the reset clears both. *)
Fixpoint replay (out : list Output) (bg fg : option TermColor) : list Shown :=
  match out with
  | [] => []
  | OutColor c :: rest =>
      if selector c =? 48 then replay rest (Some c) fg
      else replay rest bg (Some c)
  | OutGlyph w :: rest => mkShown bg fg w :: replay rest bg fg
  | OutReset :: rest => replay rest None None
  end.

(** The colours in force after a sequence of output. *)
Fixpoint term_state (out : list Output) (bg fg : option TermColor)
  : option TermColor * option TermColor :=
  match out with
  | [] => (bg, fg)
  | OutColor c :: rest =>
      if selector c =? 48 then term_state rest (Some c) fg
      else term_state rest bg (Some c)
  | OutGlyph _ :: rest => term_state rest bg fg
  | OutReset :: rest => term_state rest None None
  end.

(** The cell computed for the block at [(x, y)]. *)
Definition cell_at (image : CImg) (flags : Z) (xy : Z * Z) : CharData :=
  match cellCharData (img_data image) (fst xy) (snd xy) flags with
  | Some c => c
  | None => initial_CharData
  end.

(** The blocks of an image in the order the loops visit them. *)
Definition block_grid (image : CImg) : list (Z * Z) :=
  flat_map (fun y => map (fun x => (x, y)) (block_columns image))
           (block_rows image).

Definition is_glyph (o : Output) : bool :=
  match o with OutGlyph _ => true | _ => false end.

Definition is_reset (o : Output) : bool :=
  match o with OutReset => true | _ => false end.

(** An image of 9 by 17 pixels: two rows of two blocks, with a strip of
    one pixel left over on the right and at the bottom. *)
Definition sample_image : CImg :=
  {| img_width := 9; img_height := 17; img_data := gradient_image |}.

(** * Properties *)

(** ** Bit-level facts *)

Lemma bit_positions_range i : In i bit_positions -> 0 <= i < 32.
Proof.
  unfold bit_positions. rewrite in_map_iff.
  intros [n [<- Hn]]. apply in_seq in Hn. lia.
Qed.

Lemma popcount32_ext x y :
  (forall i, 0 <= i < 32 -> Z.testbit x i = Z.testbit y i) ->
  popcount32 x = popcount32 y.
Proof.
  intros H. unfold popcount32.
  assert (Hl : forall i, In i bit_positions -> Z.testbit x i = Z.testbit y i)
    by (intros i Hi; apply H, bit_positions_range, Hi).
  induction bit_positions as [|i l IH]; simpl; [reflexivity|].
  rewrite (Hl i) by (left; reflexivity).
  rewrite IH by (intros j Hj; apply Hl; right; exact Hj).
  reflexivity.
Qed.

Lemma popcount32_bounds x : 0 <= popcount32 x <= 32.
Proof.
  unfold popcount32.
  assert (H : forall l, 0 <= fold_right
            (fun i n => (if Z.testbit x i then 1 else 0) + n) 0 l
            <= Z.of_nat (length l)).
  { induction l as [|i l IH]; simpl length; simpl fold_right; [lia|].
    destruct (Z.testbit x i); lia. }
  specialize (H bit_positions). unfold bit_positions in H at 3.
  rewrite length_map, length_seq in H. exact H.
Qed.

Lemma not32_testbit x i : 0 <= i < 32 ->
  Z.testbit (not32 x) i = negb (Z.testbit x i).
Proof.
  intros Hi. unfold not32, wrap32.
  rewrite Z.mod_pow2_bits_low by lia.
  apply Z.lnot_spec. lia.
Qed.

Lemma not32_neq x : not32 x <> x.
Proof.
  intros H. assert (Hb := not32_testbit x 0 ltac:(lia)).
  rewrite H in Hb. destruct (Z.testbit x 0); discriminate.
Qed.

Lemma hamming_not32_swap p bits :
  hamming (not32 p) bits = hamming p (not32 bits).
Proof.
  apply popcount32_ext. intros i Hi.
  rewrite !Z.lxor_spec, !not32_testbit by exact Hi.
  destruct (Z.testbit p i), (Z.testbit bits i); reflexivity.
Qed.

(** ** The glyph search as a fold over the candidate entries *)

Lemma scan_table_entries em bits tbl :
  (forall st, marked em tbl = true ->
     scan_table tbl em bits st =
     Some (scan_entries bits
             (filter non_sentinel (before_marker em (table_entries tbl))) st))
  /\
  (forall a st, marked em (a :: tbl) = true ->
     scan_table (a :: tbl) em bits st =
     Some (scan_entries bits
             (filter non_sentinel
                (before_marker em (table_entries (a :: tbl)))) st)).
Proof.
  induction tbl as [|cp rest [IH1 IH2]].
  - split; intros; discriminate.
  - split.
    + intros st H. apply IH2, H.
    + intros a st H. cbn [marked] in H.
      cbn [scan_table table_entries before_marker snd].
      destruct (cp =? em) eqn:Ecp; [reflexivity|].
      cbn [orb] in H. cbn [filter]. unfold non_sentinel at 1. cbn [snd].
      destruct (cp <? 32); cbn [negb].
      * apply IH1, H.
      * rewrite IH1 by exact H. reflexivity.
Qed.

Lemma marked_BITMAPS flags : marked (end_marker flags) BITMAPS = true.
Proof.
  unfold end_marker. destruct (flag_set flags FLAG_TELETEXT); reflexivity.
Qed.

Lemma findGlyph_scan bits flags :
  findGlyph bits flags =
  Some (scan_entries bits (candidates flags) initial_best).
Proof.
  unfold findGlyph, candidates, active_range.
  apply scan_table_entries, marked_BITMAPS.
Qed.

Lemma candidates_non_sentinel flags e :
  In e (candidates flags) -> 32 <= snd e.
Proof.
  unfold candidates. rewrite filter_In. unfold non_sentinel.
  intros [_ H]. apply negb_true_iff, Z.ltb_ge in H. exact H.
Qed.

Lemma compare_pattern_cases entry cp pattern bits st :
  (hamming pattern bits < best_diff st /\
   compare_pattern entry cp pattern bits st =
   mkBest (hamming pattern bits) entry cp (negb (entry =? pattern)))
  \/
  (best_diff st <= hamming pattern bits /\
   compare_pattern entry cp pattern bits st = st).
Proof.
  unfold compare_pattern, hamming.
  destruct (Z.ltb_spec (popcount32 (Z.lxor pattern bits)) (best_diff st));
    [left | right]; split; auto.
Qed.

Lemma compare_entry_cases entry cp bits st :
  let r := compare_entry entry cp bits st in
  best_diff r <= best_diff st /\
  best_diff r <= hamming entry bits /\
  best_diff r <= hamming (not32 entry) bits /\
  (r = st \/
   (best_pattern r = entry /\ codepoint r = cp /\
    best_diff r = hamming (compared_pattern r) bits /\
    best_diff r < best_diff st)).
Proof.
  unfold compare_entry.
  destruct (compare_pattern_cases entry cp entry bits st) as [[H1 E1]|[H1 E1]];
    rewrite E1;
    match goal with
    | |- context [compare_pattern ?e ?c ?p ?b ?s] =>
        destruct (compare_pattern_cases e c p b s) as [[H2 E2]|[H2 E2]]
    end; rewrite E2; cbn [best_diff] in *; cbn zeta;
    unfold compared_pattern; cbn [best_diff best_pattern codepoint inverted].
  - repeat split; try lia. right.
    destruct (Z.eqb_spec entry (not32 entry)) as [E|E];
      [symmetry in E; destruct (not32_neq _ E)|].
    cbn [negb]. repeat split; lia.
  - repeat split; try lia. right. rewrite Z.eqb_refl. cbn [negb].
    repeat split; lia.
  - repeat split; try lia. right.
    destruct (Z.eqb_spec entry (not32 entry)) as [E|E];
      [symmetry in E; destruct (not32_neq _ E)|].
    cbn [negb]. repeat split; lia.
  - repeat split; try lia. left. reflexivity.
Qed.

Lemma scan_entries_cases bits es : forall st,
  let r := scan_entries bits es st in
  best_diff r <= best_diff st /\
  (forall e, In e es ->
     best_diff r <= hamming (fst e) bits /\
     best_diff r <= hamming (not32 (fst e)) bits) /\
  (r = st \/
   (In (best_pattern r, codepoint r) es /\
    best_diff r = hamming (compared_pattern r) bits /\
    best_diff r < best_diff st)).
Proof.
  induction es as [|e es IH]; intros st; cbn zeta.
  - cbn. repeat split; try lia; try contradiction. left. reflexivity.
  - unfold scan_entries. cbn [fold_left].
    fold (scan_entries bits es (compare_entry (fst e) (snd e) bits st)).
    destruct (compare_entry_cases (fst e) (snd e) bits st)
      as (Hle & Ha & Hb & Hsel).
    specialize (IH (compare_entry (fst e) (snd e) bits st)).
    cbn zeta in *. destruct IH as (IHle & IHall & IHsel).
    split; [lia|]. split.
    + intros e' [<-|Hin]; [lia | apply IHall, Hin].
    + destruct IHsel as [E|(Hin & Hd & Hlt)].
      * rewrite E. destruct Hsel as [E'|(Hp & Hc & Hd & Hlt)].
        -- left. exact E'.
        -- right. split; [|split; assumption].
           left. rewrite Hp, Hc. destruct e; reflexivity.
      * right. split; [right; exact Hin|]. split; [exact Hd | lia].
Qed.

Lemma entry_dist_alt p bits :
  entry_dist p bits = Z.min (hamming p bits) (hamming (not32 p) bits).
Proof. unfold entry_dist. rewrite hamming_not32_swap. reflexivity. Qed.

(** What the search returns, in one statement used by the claims below:
    either nothing beat the initial difference of 8 and the result is the
    initial half block, or the result is a candidate entry, recorded with
    its own pattern, whose difference is below 8 and minimal. *)
Lemma findGlyph_cases bits flags :
  exists g, findGlyph bits flags = Some g /\
    (forall e, In e (candidates flags) ->
       best_diff g <= hamming (fst e) bits /\
       best_diff g <= hamming (not32 (fst e)) bits) /\
    ((g = initial_best) \/
     (In (best_pattern g, codepoint g) (candidates flags) /\
      best_diff g = hamming (compared_pattern g) bits /\
      best_diff g < 8)).
Proof.
  exists (scan_entries bits (candidates flags) initial_best).
  split; [apply findGlyph_scan|].
  destruct (scan_entries_cases bits (candidates flags) initial_best)
    as (_ & Hall & Hsel).
  split; [exact Hall | exact Hsel].
Qed.

(** ** The pixel loop of [createCharData] *)

Lemma land_pow2_testbit x k : 0 <= k ->
  (Z.land x (2 ^ k) =? 0) = negb (Z.testbit x k).
Proof.
  intros Hk.
  assert (E : Z.land x (2 ^ k) = if Z.testbit x k then 2 ^ k else 0).
  { apply Z.bits_inj'. intros n Hn.
    rewrite Z.land_spec, Z.pow2_bits_eqb by exact Hk.
    destruct (Z.eqb_spec k n) as [->|Hne].
    - destruct (Z.testbit x n) eqn:E; rewrite ?Z.pow2_bits_eqb, ?Z.eqb_refl,
        ?Z.bits_0 by exact Hn; reflexivity.
    - rewrite andb_false_r. destruct (Z.testbit x k).
      + rewrite Z.pow2_bits_eqb by exact Hk.
        symmetry. apply Z.eqb_neq. exact Hne.
      + rewrite Z.bits_0. reflexivity. }
  rewrite E. destruct (Z.testbit x k); [|reflexivity].
  apply Z.eqb_neq. pose proof (Z.pow_pos_nonneg 2 k). lia.
Qed.

Lemma mask_test pattern i : 0 <= i < 32 ->
  negb (Z.land (wrap32 pattern) (2 ^ (31 - i)) =? 0) =
  Z.testbit pattern (31 - i).
Proof.
  intros Hi. rewrite land_pow2_testbit by lia. rewrite negb_involutive.
  unfold wrap32. apply Z.mod_pow2_bits_low. lia.
Qed.

Lemma mask_shift i : 0 <= i < 32 ->
  Z.shiftr (2 ^ (31 - i)) 1 = 2 ^ (31 - (i + 1)).
Proof.
  intros Hi. rewrite Z.shiftr_div_pow2 by lia. change (2 ^ 1) with 2.
  destruct (Z.eq_dec i 31) as [->|Hne]; [reflexivity|].
  replace (31 - i) with (Z.succ (31 - (i + 1))) by lia.
  rewrite Z.pow_succ_r by lia.
  rewrite Z.mul_comm, Z.div_mul by lia. reflexivity.
Qed.

Lemma rgb_add_assoc a b c :
  rgb_map2 Z.add (rgb_map2 Z.add a b) c = rgb_map2 Z.add a (rgb_map2 Z.add b c).
Proof. unfold rgb_map2; cbn. f_equal; lia. Qed.

Lemma rgb_add_black_l a : rgb_map2 Z.add black a = a.
Proof. destruct a; reflexivity. Qed.

Lemma rgb_add_black_r a : rgb_map2 Z.add a black = a.
Proof. destruct a; unfold rgb_map2; cbn. f_equal; lia. Qed.

Lemma accumulate_step pattern a p i :
  0 <= i < 32 -> mask a = 2 ^ (31 - i) ->
  accumulate pattern a p =
  if Z.testbit pattern (31 - i)
  then mkAccum (rgb_map2 Z.add (acc_fg a) p) (acc_bg a)
               (fg_count a + 1) (bg_count a) (2 ^ (31 - (i + 1)))
  else mkAccum (acc_fg a) (rgb_map2 Z.add (acc_bg a) p)
               (fg_count a) (bg_count a + 1) (2 ^ (31 - (i + 1))).
Proof.
  intros Hi Hm. unfold accumulate. rewrite Hm, mask_test by exact Hi.
  destruct (Z.testbit pattern (31 - i)); cbn [acc_fg acc_bg fg_count bg_count mask];
    rewrite mask_shift by exact Hi; reflexivity.
Qed.

Lemma accumulate_buckets pattern px : forall a i,
  0 <= i -> i + Z.of_nat (length px) <= 32 -> mask a = 2 ^ (31 - i) ->
  let a' := fold_left (accumulate pattern) px a in
  acc_fg a' = rgb_map2 Z.add (acc_fg a) (rgb_sum (bucket_from i true pattern px))
  /\ acc_bg a' =
     rgb_map2 Z.add (acc_bg a) (rgb_sum (bucket_from i false pattern px))
  /\ fg_count a' =
     fg_count a + Z.of_nat (length (bucket_from i true pattern px))
  /\ bg_count a' =
     bg_count a + Z.of_nat (length (bucket_from i false pattern px)).
Proof.
  induction px as [|p px IH]; intros a i Hi Hlen Hm; cbn zeta.
  - cbn. rewrite !rgb_add_black_r. repeat split; lia.
  - cbn [length] in Hlen. cbn [fold_left bucket_from].
    assert (Hi' : 0 <= i < 32) by lia.
    rewrite (accumulate_step pattern a p i Hi' Hm).
    destruct (Z.testbit pattern (31 - i)); cbn [Bool.eqb];
      match goal with
      | |- context [fold_left _ px ?b] =>
          destruct (IH b (i + 1)) as (F & B & NF & NB);
          [lia | lia | reflexivity |]
      end;
      rewrite F, B, NF, NB;
      cbn [acc_fg acc_bg fg_count bg_count rgb_sum fold_right length];
      rewrite ?rgb_add_assoc; repeat split; lia.
Qed.

Lemma average_bucket members :
  average (rgb_sum members) (Z.of_nat (length members)) = bucket_color members.
Proof.
  destruct members as [|p l]; [reflexivity|].
  unfold average, bucket_color.
  destruct (Z.eqb_spec (Z.of_nat (length (p :: l))) 0) as [E|_];
    [cbn [length] in E; lia | reflexivity].
Qed.

(** The colours [createCharData] computes for a block of at most 32 pixels
    are the bucket colours of the pattern. *)
Lemma createCharBlock_buckets px cp pattern :
  Z.of_nat (length px) <= 32 ->
  createCharBlock px cp pattern =
  {| fgColor := bucket_color (bucket true pattern px);
     bgColor := bucket_color (bucket false pattern px);
     codePoint := cp |}.
Proof.
  intros Hlen. unfold createCharBlock, bucket.
  destruct (accumulate_buckets pattern px initial_accum 0)
    as (F & B & NF & NB); [lia | lia | reflexivity |].
  cbn zeta. rewrite F, B, NF, NB. cbn [initial_accum acc_fg acc_bg fg_count bg_count].
  fold black. rewrite !rgb_add_black_l, !Z.add_0_l, !average_bucket.
  reflexivity.
Qed.

Lemma block_pixels_length image x0 y0 :
  length (block_pixels image x0 y0) = 32%nat.
Proof. unfold block_pixels. rewrite length_map. reflexivity. Qed.

Lemma to_int32_testbit x i : 0 <= i < 32 ->
  Z.testbit (to_int32 x) i = Z.testbit x i.
Proof.
  intros Hi. unfold to_int32.
  rewrite <- (Z.mod_pow2_bits_low (_ - _) 32 i) by lia.
  rewrite <- (Z.mod_pow2_bits_low x 32 i) by lia.
  f_equal.
  rewrite Zminus_mod_idemp_l.
  replace (x + 2 ^ 31 - 2 ^ 31) with x by lia. reflexivity.
Qed.

Lemma bucket_from_ext fg p q px : forall i,
  0 <= i -> i + Z.of_nat (length px) <= 32 ->
  (forall k, 0 <= k < 32 -> Z.testbit p k = Z.testbit q k) ->
  bucket_from i fg p px = bucket_from i fg q px.
Proof.
  induction px as [|x px IH]; intros i Hi Hlen H; [reflexivity|].
  cbn [length] in Hlen. cbn [bucket_from].
  rewrite (H (31 - i)) by lia. rewrite (IH (i + 1)) by (auto; lia).
  reflexivity.
Qed.

(** ** The mask built by [bits = bits << 1; bits |= 1] *)

Lemma collect_bits_snoc cond px p :
  collect_bits cond (px ++ [p]) =
  if cond p then Z.lor (shl1_32 (collect_bits cond px)) 1
  else shl1_32 (collect_bits cond px).
Proof. unfold collect_bits. rewrite fold_left_app. reflexivity. Qed.

Lemma shift_in_bit r (b : bool) n :
  0 <= r < 2 ^ n -> 0 <= n < 32 ->
  (if b then Z.lor (shl1_32 r) 1 else shl1_32 r) = 2 * r + Z.b2z b.
Proof.
  intros Hr Hn.
  assert (H32 : 2 ^ (n + 1) <= 2 ^ 32)
    by (apply Z.pow_le_mono_r; lia).
  rewrite Z.pow_add_r in H32 by lia. change (2 ^ 1) with 2 in H32.
  assert (E : shl1_32 r = 2 * r).
  { unfold shl1_32, wrap32. rewrite Z.shiftl_mul_pow2 by lia.
    change (2 ^ 1) with 2. rewrite Z.mod_small by lia. lia. }
  rewrite E. destruct b; cbn [Z.b2z]; [|lia].
  destruct r as [|q|q]; [reflexivity | reflexivity | lia].
Qed.

Lemma collect_bits_spec cond d px :
  Z.of_nat (length px) <= 32 ->
  0 <= collect_bits cond px < 2 ^ Z.of_nat (length px) /\
  forall k, (k < length px)%nat ->
    Z.testbit (collect_bits cond px) (Z.of_nat (length px) - 1 - Z.of_nat k)
    = cond (nth k px d).
Proof.
  induction px as [|p px IH] using rev_ind; intros Hlen.
  - cbn. split; [lia | intros k Hk; lia].
  - rewrite length_app in *. cbn [length] in *.
    destruct IH as [Hr Hb]; [lia|].
    rewrite collect_bits_snoc.
    rewrite (shift_in_bit _ (cond p) (Z.of_nat (length px))) by (auto; lia).
    split.
    + replace (Z.of_nat (length px + 1)) with (Z.of_nat (length px) + 1) by lia.
      rewrite Z.pow_add_r by lia. change (2 ^ 1) with 2.
      destruct (cond p); cbn [Z.b2z]; lia.
    + intros k Hk. destruct (Nat.eq_dec k (length px)) as [->|Hne].
      * replace (Z.of_nat (length px + 1) - 1 - Z.of_nat (length px)) with 0
          by lia.
        rewrite Z.testbit_0_r, nth_middle. reflexivity.
      * replace (Z.of_nat (length px + 1) - 1 - Z.of_nat k)
          with (Z.succ (Z.of_nat (length px) - 1 - Z.of_nat k)) by lia.
        rewrite Z.testbit_succ_r by lia.
        rewrite app_nth1 by lia. apply Hb. lia.
Qed.

(** ** Channel minima and maxima *)

Lemma chan_rgb_map2 f a b i :
  chan (rgb_map2 f a b) i = f (chan a i) (chan b i).
Proof.
  unfold chan, rgb_map2. cbn.
  destruct (i =? 0); [reflexivity|]. destruct (i =? 1); reflexivity.
Qed.

Lemma chan_byte_range p i : byte_range p -> 0 <= chan p i <= 255.
Proof.
  intros (Hr & Hg & Hb). unfold chan.
  destruct (i =? 0); [exact Hr|]. destruct (i =? 1); assumption.
Qed.

Lemma scan_min_max i px : forall s,
  let s' := fold_left scan_pixel px s in
  (chan (chan_min s') i <= chan (chan_min s) i /\
   (forall p, In p px -> chan (chan_min s') i <= chan p i) /\
   (chan (chan_min s') i = chan (chan_min s) i \/
    exists p, In p px /\ chan p i = chan (chan_min s') i)) /\
  (chan (chan_max s) i <= chan (chan_max s') i /\
   (forall p, In p px -> chan p i <= chan (chan_max s') i) /\
   (chan (chan_max s') i = chan (chan_max s) i \/
    exists p, In p px /\ chan p i = chan (chan_max s') i)).
Proof.
  induction px as [|p px IH]; intros s; cbn zeta.
  - cbn. repeat split; try lia; try contradiction; left; reflexivity.
  - cbn [fold_left]. specialize (IH (scan_pixel s p)). cbn zeta in IH.
    change (chan_min (scan_pixel s p)) with (rgb_map2 Z.min (chan_min s) p)
      in IH.
    change (chan_max (scan_pixel s p)) with (rgb_map2 Z.max (chan_max s) p)
      in IH.
    rewrite !chan_rgb_map2 in IH.
    destruct IH as ((A1 & A2 & A3) & (B1 & B2 & B3)).
    split; (split; [lia|]); split.
    + intros q [<-|Hq]; [lia | apply A2, Hq].
    + destruct A3 as [E|(q & Hq & E)].
      * destruct (Z.min_spec (chan (chan_min s) i) (chan p i)) as [[_ M]|[_ M]].
        -- left. lia.
        -- right. exists p. split; [left; reflexivity | lia].
      * right. exists q. split; [right; exact Hq | exact E].
    + intros q [<-|Hq]; [lia | apply B2, Hq].
    + destruct B3 as [E|(q & Hq & E)].
      * destruct (Z.max_spec (chan (chan_max s) i) (chan p i)) as [[_ M]|[_ M]].
        -- right. exists p. split; [left; reflexivity | lia].
        -- left. lia.
      * right. exists q. split; [right; exact Hq | exact E].
Qed.

Lemma block_stats_min_max px i :
  px <> [] -> Forall byte_range px ->
  is_chan_min px i (chan (chan_min (block_stats px)) i) /\
  is_chan_max px i (chan (chan_max (block_stats px)) i).
Proof.
  intros Hne Hbytes. rewrite Forall_forall in Hbytes.
  destruct (scan_min_max i px initial_stats)
    as ((A1 & A2 & A3) & (B1 & B2 & B3)).
  fold (block_stats px) in *.
  destruct px as [|p0 px']; [contradiction|].
  assert (H0 : 0 <= chan p0 i <= 255)
    by (apply chan_byte_range, Hbytes; left; reflexivity).
  assert (I0 : chan (chan_min initial_stats) i = 255)
    by (unfold chan; cbn; destruct (i =? 0); [|destruct (i =? 1)]; reflexivity).
  assert (I1 : chan (chan_max initial_stats) i = 0)
    by (unfold chan; cbn; destruct (i =? 0); [|destruct (i =? 1)]; reflexivity).
  split; (split; [assumption|]).
  - destruct A3 as [E|H]; [|exact H].
    exists p0. split; [left; reflexivity|].
    specialize (A2 p0 (or_introl eq_refl)). lia.
  - destruct B3 as [E|H]; [|exact H].
    exists p0. split; [left; reflexivity|].
    specialize (B2 p0 (or_introl eq_refl)). lia.
Qed.

Lemma is_chan_min_unique px i a b :
  is_chan_min px i a -> is_chan_min px i b -> a = b.
Proof.
  intros [A1 (p & Hp & Ep)] [B1 (q & Hq & Eq)].
  specialize (A1 q Hq). specialize (B1 p Hp). lia.
Qed.

Lemma is_chan_max_unique px i a b :
  is_chan_max px i a -> is_chan_max px i b -> a = b.
Proof.
  intros [A1 (p & Hp & Ep)] [B1 (q & Hq & Eq)].
  specialize (A1 q Hq). specialize (B1 p Hp). lia.
Qed.

Lemma best_split_spec mn mx :
  (forall i, In i channels -> 0 <= chan mx i - chan mn i) ->
  let sb := best_split mn mx in
  In (fst sb) channels /\
  snd sb = chan mx (fst sb) - chan mn (fst sb) /\
  forall i, In i channels -> chan mx i - chan mn i <= snd sb.
Proof.
  intros H.
  assert (H0 := H 0 ltac:(cbn; tauto)).
  assert (H1 := H 1 ltac:(cbn; tauto)).
  assert (H2 := H 2 ltac:(cbn; tauto)).
  unfold best_split, channels. cbn [fold_left snd fst].
  do 3 (match goal with
        | |- context [?a >? ?b] =>
            lazymatch b with
            | context [if _ then _ else _] => fail
            | _ => destruct (Z.gtb_spec a b); cbn [fst snd]
            end
        end);
  (split; [cbn; tauto|]); (split; [lia|]);
  intros i [<-|[<-|[<-|[]]]]; lia.
Qed.

Lemma pixel_byte_range image x y : byte_range (pixel image x y).
Proof.
  unfold byte_range, pixel, sample. cbn.
  pose proof (Byte.to_N_bounded (image x y 0)).
  pose proof (Byte.to_N_bounded (image x y 1)).
  pose proof (Byte.to_N_bounded (image x y 2)). lia.
Qed.

Lemma block_pixels_byte_range image x0 y0 :
  Forall byte_range (block_pixels image x0 y0).
Proof.
  unfold block_pixels. apply Forall_forall. intros p Hp.
  apply in_map_iff in Hp. destruct Hp as (xy & <- & _).
  apply pixel_byte_range.
Qed.

Lemma block_pixels_nonempty image x0 y0 : block_pixels image x0 y0 <> [].
Proof.
  intros E. pose proof (block_pixels_length image x0 y0) as H.
  rewrite E in H. discriminate.
Qed.

(** ** The colour counts: [count_per_color] *)

Lemma keys_above_assoc k m : Forall (fun e => k < fst e) m -> assoc k m = 0.
Proof.
  induction m as [|[k' v] m IH]; intros H; cbn [assoc]; [reflexivity|].
  inversion H as [|? ? Hk Hm]; subst. cbn in Hk.
  destruct (Z.eqb_spec k k'); [lia | apply IH, Hm].
Qed.

Lemma map_incr_keys_above k0 k m :
  k0 < k -> Forall (fun e => k0 < fst e) m ->
  Forall (fun e => k0 < fst e) (map_incr k m).
Proof.
  intros Hk. induction m as [|[k' v] m IH]; intros H; cbn [map_incr].
  - constructor; [exact Hk | constructor].
  - inversion H as [|? ? Hk' Hm]; subst. cbn in Hk'.
    destruct (k <? k'); [constructor; [exact Hk | exact H]|].
    destruct (k =? k'); constructor; auto.
Qed.

Lemma map_incr_increasing k m :
  keys_increasing m -> keys_increasing (map_incr k m).
Proof.
  induction m as [|[k' v] m IH]; cbn [map_incr keys_increasing].
  - intros _. split; constructor.
  - intros [Hab Hm]. cbn [fst] in Hab. destruct (Z.ltb_spec k k').
    + cbn [keys_increasing fst]. split; [|split; assumption].
      constructor; [exact H|].
      eapply Forall_impl; [|exact Hab]. cbn. intros; lia.
    + destruct (Z.eqb_spec k k').
      * cbn [keys_increasing fst]. split; assumption.
      * cbn [keys_increasing fst]. split; [|apply IH, Hm].
        apply map_incr_keys_above; [lia | exact Hab].
Qed.

Lemma assoc_map_incr k k' m :
  keys_increasing m ->
  assoc k' (map_incr k m) = assoc k' m + (if k' =? k then 1 else 0).
Proof.
  induction m as [|[k0 v] m IH]; cbn [map_incr assoc keys_increasing].
  - intros _. destruct (k' =? k); reflexivity.
  - intros [Hab Hm]. cbn [fst] in Hab. destruct (Z.ltb_spec k k0).
    + cbn [assoc]. destruct (Z.eqb_spec k' k) as [->|Hne]; [|lia].
      destruct (Z.eqb_spec k k0); [lia|].
      rewrite keys_above_assoc; [reflexivity|].
      eapply Forall_impl; [|exact Hab]. cbn. intros; lia.
    + destruct (Z.eqb_spec k k0) as [->|Hne].
      * cbn [assoc]. destruct (Z.eqb_spec k' k0); lia.
      * cbn [assoc]. destruct (Z.eqb_spec k' k0) as [->|Hne'].
        -- destruct (Z.eqb_spec k0 k); lia.
        -- apply IH, Hm.
Qed.

Lemma map_incr_positive k m :
  Forall (fun e => 1 <= snd e) m -> Forall (fun e => 1 <= snd e) (map_incr k m).
Proof.
  induction m as [|[k' v] m IH]; intros H; cbn [map_incr].
  - constructor; [cbn; lia | constructor].
  - inversion H as [|? ? Hv Hm]; subst. cbn in Hv.
    destruct (k <? k'); [constructor; [cbn; lia | exact H]|].
    destruct (k =? k'); constructor; cbn; auto; lia.
Qed.

Lemma count_key_cons k x ks :
  count_key k (x :: ks) = (if k =? x then 1 else 0) + count_key k ks.
Proof.
  unfold count_key. cbn [filter]. destruct (k =? x); cbn [length]; lia.
Qed.

Lemma count_per_color_fold px : forall s,
  keys_increasing (count_per_color s) ->
  Forall (fun e => 1 <= snd e) (count_per_color s) ->
  let m := count_per_color (fold_left scan_pixel px s) in
  keys_increasing m /\ Forall (fun e => 1 <= snd e) m /\
  forall k, assoc k m =
            assoc k (count_per_color s) + count_key k (map color_key px).
Proof.
  induction px as [|p px IH]; intros s Hinc Hpos; cbn zeta.
  - cbn. repeat split; auto. intros; lia.
  - cbn [fold_left map].
    destruct (IH (scan_pixel s p)) as (I & P & A).
    + apply map_incr_increasing, Hinc.
    + apply map_incr_positive, Hpos.
    + repeat split; auto. intros k. rewrite A.
      change (count_per_color (scan_pixel s p))
        with (map_incr (color_key p) (count_per_color s)).
      rewrite assoc_map_incr by exact Hinc. rewrite count_key_cons. lia.
Qed.

Lemma block_counts px :
  let m := count_per_color (block_stats px) in
  keys_increasing m /\ Forall (fun e => 1 <= snd e) m /\
  forall k, assoc k m = count_key k (map color_key px).
Proof.
  destruct (count_per_color_fold px initial_stats) as (I & P & A);
    [exact I | constructor |].
  repeat split; auto.
Qed.

Lemma assoc_In k v m : keys_increasing m -> In (k, v) m -> assoc k m = v.
Proof.
  induction m as [|[k0 v0] m IH]; cbn [keys_increasing assoc In];
    [contradiction|].
  intros [Hab Hm] [E|Hin].
  - inversion E; subst. rewrite Z.eqb_refl. reflexivity.
  - destruct (Z.eqb_spec k k0) as [->|_]; [|apply IH; assumption].
    rewrite Forall_forall in Hab. specialize (Hab _ Hin). cbn in Hab. lia.
Qed.

Lemma In_assoc k m : assoc k m <> 0 -> In (k, assoc k m) m.
Proof.
  induction m as [|[k0 v0] m IH]; cbn [assoc In]; [congruence|].
  intros H. destruct (Z.eqb_spec k k0) as [->|_].
  - left. reflexivity.
  - right. apply IH, H.
Qed.

Lemma keys_increasing_NoDup m : keys_increasing m -> NoDup (map fst m).
Proof.
  induction m as [|e m IH]; cbn [keys_increasing map]; [constructor|].
  intros [Hab Hm]. constructor; [|apply IH, Hm].
  intros Hin. apply in_map_iff in Hin. destruct Hin as (e' & E & He').
  rewrite Forall_forall in Hab. specialize (Hab _ He'). lia.
Qed.

(** ** The colour counts: [color_per_count] *)

Lemma multimap_insert_perm k v m :
  Permutation (multimap_insert k v m) ((k, v) :: m).
Proof.
  induction m as [|[k' v'] m IH]; cbn [multimap_insert]; [reflexivity|].
  destruct (k <? k'); [reflexivity|].
  etransitivity; [apply perm_skip, IH | apply perm_swap].
Qed.

Lemma multimap_insert_sorted k v m :
  keys_sorted m -> keys_sorted (multimap_insert k v m).
Proof.
  induction m as [|[k' v'] m IH]; cbn [multimap_insert keys_sorted].
  - intros _. split; constructor.
  - intros [Hab Hm]. cbn [fst] in Hab. destruct (Z.ltb_spec k k').
    + cbn [keys_sorted fst]. split; [|split; assumption].
      constructor; [cbn; lia|].
      eapply Forall_impl; [|exact Hab]. cbn. intros; lia.
    + cbn [keys_sorted fst]. split; [|apply IH, Hm].
      eapply Permutation_Forall;
        [apply Permutation_sym, multimap_insert_perm|].
      constructor; [cbn; lia | exact Hab].
Qed.

Lemma color_per_count_fold cpc : forall acc,
  keys_sorted acc ->
  let mm := fold_left (fun mm e => multimap_insert (snd e) (fst e) mm) cpc acc in
  keys_sorted mm /\ Permutation mm (acc ++ map swap_pair cpc).
Proof.
  induction cpc as [|e cpc IH]; intros acc Hs; cbn zeta.
  - cbn. rewrite app_nil_r. split; [exact Hs | reflexivity].
  - cbn [fold_left map].
    destruct (IH (multimap_insert (snd e) (fst e) acc)) as [S P];
      [apply multimap_insert_sorted, Hs|].
    split; [exact S|].
    etransitivity; [exact P|].
    etransitivity;
      [apply Permutation_app_tail, multimap_insert_perm|].
    apply Permutation_middle.
Qed.

Lemma color_per_count_spec cpc :
  keys_sorted (color_per_count cpc) /\
  Permutation (color_per_count cpc) (map swap_pair cpc).
Proof.
  apply (color_per_count_fold cpc []). exact I.
Qed.

Lemma keys_sorted_app l1 l2 :
  keys_sorted (l1 ++ l2) ->
  keys_sorted l1 /\ keys_sorted l2 /\
  forall a b, In a l1 -> In b l2 -> fst a <= fst b.
Proof.
  induction l1 as [|x l1 IH]; cbn [app keys_sorted].
  - intros H. repeat split; auto. intros a b [].
  - intros [Hab H]. apply IH in H. destruct H as (S1 & S2 & H12).
    apply Forall_app in Hab. destruct Hab as [F1 F2].
    repeat split; auto.
    intros a b [<-|Ha] Hb; [|apply H12; assumption].
    rewrite Forall_forall in F2. apply F2, Hb.
Qed.

(** The last and the last-but-one pair of a sorted multimap. *)
Lemma top_two_cases mm :
  keys_sorted mm -> mm <> [] ->
  exists n1 c1,
    (forall e, In e mm -> fst e <= n1) /\
    ((mm = [(n1, c1)] /\ top_two mm = (n1, c1, c1)) \/
     (exists n2 c2 front,
        mm = (front ++ [(n2, c2)]) ++ [(n1, c1)] /\
        top_two mm = (n1 + n2, c1, c2) /\
        forall e, In e (front ++ [(n2, c2)]) -> fst e <= n2)).
Proof.
  intros Hs Hne. unfold top_two.
  destruct (rev mm) as [|[n1 c1] rest] eqn:Erev.
  - apply (f_equal (@rev _)) in Erev. rewrite rev_involutive in Erev.
    contradiction.
  - apply (f_equal (@rev _)) in Erev. rewrite rev_involutive in Erev.
    cbn [rev] in Erev. exists n1, c1.
    assert (Htop : forall e, In e mm -> fst e <= n1).
    { rewrite Erev in Hs |- *. apply keys_sorted_app in Hs.
      destruct Hs as (_ & _ & H12). intros e He.
      apply in_app_or in He. destruct He as [He|[<-|[]]]; [|cbn; lia].
      apply (H12 e (n1, c1)); [exact He | left; reflexivity]. }
    split; [exact Htop|].
    destruct rest as [|[n2 c2] rest'].
    + left. split; [exact Erev | reflexivity].
    + right. exists n2, c2, (rev rest'). cbn [rev] in Erev.
      split; [exact Erev|]. split; [reflexivity|].
      rewrite Erev in Hs. apply keys_sorted_app in Hs.
      destruct Hs as (Hs & _ & _). apply keys_sorted_app in Hs.
      destruct Hs as (_ & _ & H12). intros e He.
      apply in_app_or in He. destruct He as [He|[<-|[]]]; [|cbn; lia].
      apply (H12 e (n2, c2)); [exact He | left; reflexivity].
Qed.

(** ** Packed colours and frequencies *)

Lemma shl8_or c d : 0 <= d < 256 -> Z.lor (Z.shiftl c 8) d = c * 256 + d.
Proof.
  intros Hd. rewrite Z.shiftl_mul_pow2 by lia.
  assert (H : Z.land (c * 2 ^ 8) d = 0).
  { apply Z.bits_inj'. intros n Hn. rewrite Z.land_spec, Z.bits_0.
    destruct (Z.lt_ge_cases n 8).
    - rewrite Z.mul_pow2_bits_low by lia. reflexivity.
    - rewrite <- (Z.mod_small d (2 ^ 8)) by (change (2 ^ 8) with 256; lia).
      rewrite Z.mod_pow2_bits_high by lia. apply andb_false_r. }
  rewrite <- Z.lxor_lor by exact H.
  rewrite <- Z.add_nocarry_lxor by exact H. reflexivity.
Qed.

Lemma color_key_value p :
  byte_range p -> color_key p = (red p * 256 + green p) * 256 + blue p.
Proof.
  intros (Hr & Hg & Hb). unfold color_key, channels. cbn [fold_left].
  change (chan p 0) with (red p). change (chan p 1) with (green p).
  change (chan p 2) with (blue p).
  rewrite !shl8_or by lia. lia.
Qed.

Lemma RGB_eqb_eq a b : RGB_eqb a b = true <-> a = b.
Proof.
  unfold RGB_eqb. rewrite !andb_true_iff, !Z.eqb_eq.
  destruct a, b; cbn. split.
  - intros [[-> ->] ->]. reflexivity.
  - intros E. inversion E. auto.
Qed.

Lemma color_key_inj p q :
  byte_range p -> byte_range q -> color_key p = color_key q -> p = q.
Proof.
  intros Hp Hq. rewrite !color_key_value by assumption.
  destruct Hp as (? & ? & ?), Hq as (? & ? & ?).
  destruct p, q; cbn in *. intros E. f_equal; lia.
Qed.

Lemma color_key_eqb p q :
  byte_range p -> byte_range q ->
  (color_key p =? color_key q) = RGB_eqb p q.
Proof.
  intros Hp Hq. destruct (RGB_eqb p q) eqn:E.
  - apply RGB_eqb_eq in E. subst. apply Z.eqb_refl.
  - apply Z.eqb_neq. intros K. apply color_key_inj in K; auto.
    apply RGB_eqb_eq in K. congruence.
Qed.

Lemma freq_count_key px a :
  Forall byte_range px -> byte_range a ->
  freq px a = count_key (color_key a) (map color_key px).
Proof.
  intros Hpx Ha. unfold freq, count_key. f_equal.
  induction Hpx as [|p px Hp _ IH]; [reflexivity|].
  cbn [map filter]. rewrite color_key_eqb by assumption.
  destruct (RGB_eqb a p); cbn [length]; rewrite IH; reflexivity.
Qed.

Lemma freq_In px c : freq px c <> 0 -> In c px.
Proof.
  unfold freq. induction px as [|p px IH]; cbn [filter length];
    [intros H; contradiction H; reflexivity|].
  destruct (RGB_eqb c p) eqn:E.
  - intros _. left. symmetry. apply RGB_eqb_eq, E.
  - intros H. right. apply IH, H.
Qed.

Lemma count_key_In k ks : count_key k ks <> 0 -> In k ks.
Proof.
  unfold count_key. induction ks as [|x ks IH]; cbn [filter length];
    [intros H; contradiction H; reflexivity|].
  destruct (Z.eqb_spec k x) as [->|_].
  - intros _. left. reflexivity.
  - intros H. right. apply IH, H.
Qed.

Lemma In_count_key k ks : In k ks -> 1 <= count_key k ks.
Proof.
  unfold count_key. induction ks as [|x ks IH]; [contradiction|].
  cbn [filter]. intros [->|H].
  - rewrite Z.eqb_refl. cbn [length]. lia.
  - specialize (IH H). destruct (k =? x); cbn [length]; lia.
Qed.

(** ** The two most frequent colours of a block *)

Lemma nonempty_In {A : Type} (l : list A) : l <> [] -> exists x, In x l.
Proof.
  destruct l as [|x l]; [intros H; contradiction H; reflexivity|].
  intros _. exists x. left. reflexivity.
Qed.

Section TopTwo.

Variable px : list RGB.
Hypothesis px_nonempty : px <> [].
Hypothesis px_bytes : Forall byte_range px.

Let ks := map color_key px.
Let m := count_per_color (block_stats px).
Let mm := color_per_count m.

Lemma px_byte p : In p px -> byte_range p.
Proof. intros H. rewrite Forall_forall in px_bytes. apply px_bytes, H. Qed.

Lemma mm_counts n c : In (n, c) mm -> n = count_key c ks /\ 1 <= n.
Proof.
  intros H. destruct (block_counts px) as (I & P & A).
  destruct (color_per_count_spec m) as [_ Pm].
  apply (Permutation_in _ Pm) in H. apply in_map_iff in H.
  destruct H as ([c' n'] & E & He). inversion E; subst.
  split.
  - rewrite <- A. symmetry. apply assoc_In; assumption.
  - rewrite Forall_forall in P. apply (P _ He).
Qed.

Lemma mm_has c : In c ks -> In (count_key c ks, c) mm.
Proof.
  intros H. apply In_count_key in H.
  destruct (block_counts px) as (I & P & A).
  destruct (color_per_count_spec m) as [_ Pm].
  apply (Permutation_in _ (Permutation_sym Pm)).
  apply in_map_iff. exists (c, count_key c ks). split; [reflexivity|].
  rewrite <- A. apply In_assoc. rewrite A. fold ks. lia.
Qed.

Lemma mm_colors_NoDup : NoDup (map snd mm).
Proof.
  destruct (block_counts px) as (I & _ & _).
  destruct (color_per_count_spec m) as [_ Pm].
  apply (Permutation_NoDup
           (Permutation_sym (Permutation_map snd Pm))).
  rewrite map_map. cbn. apply keys_increasing_NoDup, I.
Qed.

Lemma freq_of_pixel p :
  In p px -> freq px p = count_key (color_key p) ks /\ 1 <= freq px p.
Proof.
  intros H. assert (E := freq_count_key px p px_bytes (px_byte p H)).
  split; [exact E|]. rewrite E. apply In_count_key, in_map, H.
Qed.

Lemma pixel_of_key k : In k ks -> exists p, In p px /\ color_key p = k.
Proof.
  intros H. apply in_map_iff in H. destruct H as (p & E & Hp).
  exists p. split; assumption.
Qed.

Lemma freq_nonneg c : 0 <= freq px c.
Proof. unfold freq. lia. Qed.

(** What [count2], [max_count_color_1] and [max_count_color_2] are. *)
Lemma block_top_two_spec :
  exists a, In a px /\ color_key a = max_count_color_1 px /\
    (forall c, freq px c <= freq px a) /\
    (((forall p, In p px -> p = a) /\
      block_count2 px = freq px a /\
      max_count_color_2 px = max_count_color_1 px)
     \/
     (exists b, In b px /\ b <> a /\ color_key b = max_count_color_2 px /\
        (forall c, c <> a -> freq px c <= freq px b) /\
        block_count2 px = freq px a + freq px b)).
Proof.
  destruct (color_per_count_spec m) as [Hs _]. fold mm in Hs.
  assert (Hne : mm <> []).
  { destruct (nonempty_In px px_nonempty) as [p0 Hp0].
    intros E. assert (H : In (color_key p0) ks) by (apply in_map, Hp0).
    apply mm_has in H. rewrite E in H. exact H. }
  destruct (top_two_cases mm Hs Hne) as (n1 & c1 & Htop & Hcases).
  assert (Hin1 : In (n1, c1) mm).
  { destruct Hcases as [[E _]|(n2 & c2 & front & E & _)]; rewrite E.
    - left. reflexivity.
    - apply in_or_app. right. left. reflexivity. }
  destruct (mm_counts _ _ Hin1) as [En1 Hn1].
  destruct (pixel_of_key c1) as (a & Ha & Ka);
    [apply count_key_In; lia|].
  destruct (freq_of_pixel a Ha) as [Fa Fa1]. rewrite Ka in Fa.
  assert (Hmax : forall c, freq px c <= freq px a).
  { intros c. destruct (Z.eq_dec (freq px c) 0) as [E|E]; [lia|].
    apply freq_In in E. destruct (freq_of_pixel c E) as [Fc _].
    assert (H := mm_has (color_key c) (in_map _ _ _ E)).
    apply Htop in H. cbn [fst] in H. lia. }
  unfold block_count2, max_count_color_1, max_count_color_2, block_top_two.
  fold m. fold mm.
  exists a. destruct Hcases as [[E T]|(n2 & c2 & front & E & T & H2)];
    rewrite T; cbn [fst snd].
  - repeat split; auto. left. repeat split; [|lia].
    intros p Hp. apply color_key_inj; auto using px_byte.
    assert (H := mm_has (color_key p) (in_map _ _ _ Hp)).
    rewrite E in H. destruct H as [H|[]]. inversion H. congruence.
  - repeat split; auto. right.
    assert (Hin2 : In (n2, c2) mm).
    { rewrite E. apply in_or_app. left. apply in_or_app. right.
      left. reflexivity. }
    destruct (mm_counts _ _ Hin2) as [En2 Hn2].
    destruct (pixel_of_key c2) as (b & Hb & Kb);
      [apply count_key_In; lia|].
    destruct (freq_of_pixel b Hb) as [Fb _]. rewrite Kb in Fb.
    assert (Hnd := mm_colors_NoDup). rewrite E in Hnd.
    rewrite map_app in Hnd. cbn [map snd] in Hnd.
    apply NoDup_remove_2 in Hnd. rewrite app_nil_r in Hnd.
    assert (Hother : forall e, In e mm -> snd e <> c1 ->
                               In e (front ++ [(n2, c2)])).
    { intros e He Hc. rewrite E in He. apply in_app_or in He.
      destruct He as [He|[<-|[]]]; [exact He | contradiction Hc].
      reflexivity. }
    assert (Hc21 : c2 <> c1).
    { intros K. apply Hnd. rewrite <- K. apply in_map_iff.
      exists (n2, c2). split; [reflexivity|].
      apply in_or_app. right. left. reflexivity. }
    exists b. repeat split; auto; [congruence | | lia].
    intros c Hc. destruct (Z.eq_dec (freq px c) 0) as [E0|E0];
      [pose proof (freq_nonneg b); lia|].
    apply freq_In in E0. destruct (freq_of_pixel c E0) as [Fc _].
    assert (H := mm_has (color_key c) (in_map _ _ _ E0)).
    apply Hother in H.
    + apply H2 in H. cbn [fst] in H. lia.
    + cbn [snd]. intros K. apply Hc.
      apply color_key_inj; auto using px_byte. congruence.
Qed.

End TopTwo.

(** ** Claims about the glyph search *)

Lemma In_candidates_0 e :
  existsb (fun e' => (fst e =? fst e') && (snd e =? snd e')) (candidates 0)
  = true -> In e (candidates 0).
Proof.
  intros H. apply existsb_exists in H. destruct H as ([p c] & Hin & E).
  apply andb_true_iff in E. cbn [fst snd] in E. destruct E as [E1 E2].
  apply Z.eqb_eq in E1, E2. destruct e as [p' c']. cbn [fst snd] in *.
  subst. exact Hin.
Qed.

(** C1, as stated, fails: for the mask [0xb2221a58] no entry is closer than
    8 bits, so the search keeps the initial lower half block, which is 16
    bits away, although the entry [0x22220000] (light up) is 8 bits away. *)
Lemma best_match_optimal_fails : ~ best_match_optimal 0xb2221a58 0.
Proof.
  intros (g & Hg & Hall).
  assert (Eg : findGlyph 0xb2221a58 0 = Some initial_best)
    by (vm_compute; reflexivity).
  rewrite Eg in Hg. inversion Hg; subst g.
  specialize (Hall (0x22220000, 0x2575)
                (In_candidates_0 (0x22220000, 0x2575)
                   ltac:(vm_compute; reflexivity))).
  vm_compute in Hall. apply Hall. reflexivity.
Qed.

(** C1, amended: the search always returns a result.  When some
    non-sentinel entry of the active range is fewer than 8 bits away from
    the mask or from its complement, the selected (pattern, code point) is
    such an entry, its distance is the recorded difference, and no
    non-sentinel entry of the range is closer.  Otherwise every such entry
    is at least 8 bits away and the result is the initial lower half
    block. *)
Theorem best_match_below_eight bits flags :
  exists g, findGlyph bits flags = Some g /\
    ((In (best_pattern g, codepoint g) (candidates flags) /\
      entry_dist (best_pattern g) bits = best_diff g /\
      best_diff g < 8 /\
      forall e, In e (candidates flags) ->
        entry_dist (best_pattern g) bits <= entry_dist (fst e) bits)
     \/
     (g = initial_best /\
      forall e, In e (candidates flags) -> 8 <= entry_dist (fst e) bits)).
Proof.
  destruct (findGlyph_cases bits flags) as (g & Hg & Hall & Hsel).
  exists g. split; [exact Hg|].
  assert (Hd : forall e, In e (candidates flags) ->
                         best_diff g <= entry_dist (fst e) bits).
  { intros e He. rewrite entry_dist_alt. destruct (Hall e He). lia. }
  destruct Hsel as [->|(Hin & Hdiff & Hlt)].
  - right. split; [reflexivity | exact Hd].
  - left. assert (E : entry_dist (best_pattern g) bits = best_diff g).
    { rewrite entry_dist_alt. destruct (Hall _ Hin) as [H1 H2].
      cbn [fst] in H1, H2. unfold compared_pattern in Hdiff.
      destruct (inverted g); lia. }
    repeat split; auto. intros e He. rewrite E. apply Hd, He.
Qed.

(** C2, as stated, fails: for the all-ones mask the winning comparison is
    against the complement of the first entry, and the search records the
    entry's pattern [0], not the complemented pattern [0xffffffff]. *)
Lemma records_compared_pattern_fails :
  ~ records_compared_pattern 0xffffffff 0.
Proof.
  unfold records_compared_pattern. vm_compute. intros H. discriminate H.
Qed.

Lemma compare_pattern_simulates entry cp pattern bits inv g s :
  negb (entry =? pattern) = inv ->
  (if inv then not32 entry else entry) = pattern ->
  codepoint g = codepoint s /\ best_diff g = best_diff s /\
  inverted g = inverted s /\ compared_pattern g = best_pattern s ->
  let g' := compare_pattern entry cp pattern bits g in
  let s' := compare_pattern_as_specified cp pattern bits inv s in
  codepoint g' = codepoint s' /\ best_diff g' = best_diff s' /\
  inverted g' = inverted s' /\ compared_pattern g' = best_pattern s'.
Proof.
  intros Hinv Hpat (Hc & Hd & Hi & Hp). cbn zeta.
  unfold compare_pattern, compare_pattern_as_specified, hamming.
  rewrite <- Hd.
  destruct (popcount32 (Z.lxor pattern bits) <? best_diff g).
  - unfold compared_pattern.
    cbn [codepoint best_diff inverted best_pattern].
    rewrite Hinv. auto.
  - auto.
Qed.

Lemma scan_entries_simulates bits es : forall g s,
  codepoint g = codepoint s /\ best_diff g = best_diff s /\
  inverted g = inverted s /\ compared_pattern g = best_pattern s ->
  let g' := scan_entries bits es g in
  let s' := fold_left (compare_entry_as_specified bits) es s in
  codepoint g' = codepoint s' /\ best_diff g' = best_diff s' /\
  inverted g' = inverted s' /\ compared_pattern g' = best_pattern s'.
Proof.
  induction es as [|e es IH]; intros g s R; cbn zeta; [exact R|].
  unfold scan_entries. cbn [fold_left]. apply IH.
  unfold compare_entry, compare_entry_as_specified.
  apply compare_pattern_simulates.
  - destruct (Z.eqb_spec (fst e) (not32 (fst e))) as [E|_];
      [symmetry in E; destruct (not32_neq _ E) | reflexivity].
  - reflexivity.
  - apply compare_pattern_simulates; [|reflexivity|exact R].
    rewrite Z.eqb_refl. reflexivity.
Qed.

Lemma bucket_to_int32 fg p px :
  Z.of_nat (length px) <= 32 ->
  bucket fg (to_int32 p) px = bucket fg p px.
Proof.
  intros H. apply bucket_from_ext; [lia | lia |].
  intros k Hk. apply to_int32_testbit, Hk.
Qed.

(** C2, amended: the search always records the dictionary entry's own
    pattern, whichever polarity won; the inverted flag is set exactly when
    the winning comparison used the complement, so that the pattern
    actually compared is the complement of the recorded one when the flag
    is set and the recorded one when it is clear.  In split mode, colour
    finalisation partitions the pixels by the recorded entry pattern. *)
Theorem search_records_entry_pattern bits flags :
  exists g, findGlyph bits flags = Some g /\
    let s := findGlyph_as_specified bits flags in
    codepoint g = codepoint s /\ best_diff g = best_diff s /\
    inverted g = inverted s /\
    (if inverted g then not32 (best_pattern g) else best_pattern g)
    = best_pattern s /\
    (g = initial_best \/ In (best_pattern g, codepoint g) (candidates flags))
    /\
    forall image x0 y0,
      let px := block_pixels image x0 y0 in
      block_bits px = bits -> block_direct px = false ->
      findCharData image x0 y0 flags =
      Some {| fgColor := bucket_color (bucket true (best_pattern g) px);
              bgColor := bucket_color (bucket false (best_pattern g) px);
              codePoint := codepoint g |}.
Proof.
  destruct (findGlyph_cases bits flags) as (g & Hg & _ & Hsel).
  exists g. split; [exact Hg|]. cbn zeta.
  assert (Eg : g = scan_entries bits (candidates flags) initial_best)
    by (rewrite findGlyph_scan in Hg; inversion Hg; reflexivity).
  destruct (scan_entries_simulates bits (candidates flags)
              initial_best initial_best) as (Hc & Hd & Hi & Hp);
    [repeat split|].
  rewrite <- Eg in Hc, Hd, Hi, Hp. fold (findGlyph_as_specified bits flags) in *.
  repeat split; auto.
  - destruct Hsel as [E|(Hin & _)]; [left | right]; assumption.
  - intros image x0 y0 Hbits Hdirect.
    unfold findCharData, findCharBlock. rewrite Hbits, Hg, Hdirect.
    assert (Hlen : Z.of_nat (length (block_pixels image x0 y0)) <= 32)
      by (rewrite block_pixels_length; lia).
    rewrite createCharBlock_buckets, !bucket_to_int32 by exact Hlen.
    reflexivity.
Qed.

(** A split-mode block whose mask is the complement of the lower half
    block: the search records the entry pattern [0x0000ffff] with the
    inverted flag set, and the foreground is the average of the lower half
    of the block, which is where the glyph has its pixels. *)
Example split_mode_inverted_match :
  block_direct (block_pixels fading_image 0 0) = false /\
  block_bits (block_pixels fading_image 0 0) = 0xffff0000 /\
  findGlyph 0xffff0000 0 =
  Some {| best_diff := 0; best_pattern := 0x0000ffff; codepoint := 0x2584;
          inverted := true |} /\
  findCharData fading_image 0 0 0 =
  Some {| fgColor := mkRGB 67 66 65; bgColor := mkRGB 195 194 193;
          codePoint := 0x2584 |} /\
  bucket_color (bucket true 0x0000ffff (block_pixels fading_image 0 0))
  = mkRGB 67 66 65.
Proof. vm_compute. repeat split. Qed.

Lemma candidates_standard flags :
  flag_set flags FLAG_TELETEXT = false -> candidates flags = candidates 0.
Proof.
  intros H. unfold candidates, active_range, end_marker. rewrite H.
  reflexivity.
Qed.

(** C6: with the teletext flag clear, the code point the search returns is
    never one of the entries between the two end markers, whatever the
    mask. *)
Theorem standard_search_excludes_extended bits flags :
  flag_set flags FLAG_TELETEXT = false ->
  exists g, findGlyph bits flags = Some g /\
            ~ In (codepoint g) extended_codepoints.
Proof.
  intros Hoff.
  destruct (findGlyph_cases bits flags) as (g & Hg & _ & Hsel).
  exists g. split; [exact Hg|].
  assert (Hcheck : forallb (fun c => negb (existsb (Z.eqb c) extended_codepoints))
                     (codepoint initial_best :: map snd (candidates 0)) = true)
    by (vm_compute; reflexivity).
  rewrite forallb_forall in Hcheck.
  assert (Hin : In (codepoint g)
                   (codepoint initial_best :: map snd (candidates 0))).
  { destruct Hsel as [->|(Hin & _)]; [left; reflexivity|].
    right. rewrite candidates_standard in Hin by exact Hoff.
    apply (in_map snd) in Hin. exact Hin. }
  specialize (Hcheck _ Hin). apply negb_true_iff in Hcheck.
  intros Hext. assert (existsb (Z.eqb (codepoint g)) extended_codepoints = true).
  { apply existsb_exists. exists (codepoint g). split; [exact Hext|].
    apply Z.eqb_refl. }
  congruence.
Qed.

Lemma standard_search_excludes_extended_witness :
  flag_set 0 FLAG_TELETEXT = false /\
  exists g, findGlyph 0xccc00000 0 = Some g /\
            ~ In (codepoint g) extended_codepoints.
Proof.
  split; [reflexivity|].
  apply (standard_search_excludes_extended 0xccc00000 0). reflexivity.
Defined.

(** The situation C6 speaks of does occur: the mask [0xccc00000] is the
    pattern of the extended entry [0xfb00], every standard entry is at
    least 2 bits away, and with the flag clear the search returns the
    standard upper left quadrant. *)
Example extended_entry_strictly_closer :
  In (0xccc00000, 0xfb00) extended_range /\
  entry_dist 0xccc00000 0xccc00000 = 0 /\
  forallb (fun e => 2 <=? entry_dist (fst e) 0xccc00000) (candidates 0) = true
  /\ option_map codepoint (findGlyph 0xccc00000 0) = Some 0x2598
  /\ option_map codepoint (findGlyph 0xccc00000 FLAG_TELETEXT) = Some 0xfb00.
Proof.
  split; [left; reflexivity|]. vm_compute. auto.
Qed.

(** C10: when every non-sentinel entry of the active range differs from the
    mask in at least 8 bits and from the mask's complement in at least 8
    bits, the search returns the initial values: code point [0x2584] with
    pattern [0x0000ffff], not inverted. *)
Theorem fallback_when_all_far bits flags :
  (forall e, In e (candidates flags) ->
     8 <= hamming (fst e) bits /\ 8 <= hamming (fst e) (not32 bits)) ->
  findGlyph bits flags =
  Some {| best_diff := 8; best_pattern := 0x0000ffff; codepoint := 0x2584;
          inverted := false |}.
Proof.
  intros Hfar.
  destruct (findGlyph_cases bits flags) as (g & Hg & _ & Hsel).
  rewrite Hg. destruct Hsel as [->|(Hin & Hd & Hlt)]; [reflexivity|].
  exfalso. destruct (Hfar _ Hin) as [H1 H2]. cbn [fst] in H1, H2.
  rewrite <- hamming_not32_swap in H2. unfold compared_pattern in Hd.
  destruct (inverted g); lia.
Qed.

Lemma fallback_when_all_far_witness :
  (forall e, In e (candidates 0) ->
     8 <= hamming (fst e) 0xb2221a58 /\
     8 <= hamming (fst e) (not32 0xb2221a58)) /\
  findGlyph 0xb2221a58 0 =
  Some {| best_diff := 8; best_pattern := 0x0000ffff; codepoint := 0x2584;
          inverted := false |}.
Proof.
  assert (H : forall e, In e (candidates 0) ->
     8 <= hamming (fst e) 0xb2221a58 /\
     8 <= hamming (fst e) (not32 0xb2221a58)).
  { assert (Hc : forallb (fun e => (8 <=? hamming (fst e) 0xb2221a58) &&
                              (8 <=? hamming (fst e) (not32 0xb2221a58)))
                   (candidates 0) = true) by (vm_compute; reflexivity).
    rewrite forallb_forall in Hc. intros e He. specialize (Hc e He).
    apply andb_true_iff in Hc. destruct Hc as [H1 H2].
    apply Z.leb_le in H1, H2. split; assumption. }
  split; [exact H|].
  apply (fallback_when_all_far 0xb2221a58 0 H).
Defined.

(** C8: whatever the block and the flags, the search produces a result
    and its code point is at least 32: the entries it can select are the
    non-sentinel ones and the initial value is [0x2584].  The same holds
    for the cell computed when the optimisation is switched off. *)
Theorem glyph_never_sentinel image x0 y0 flags :
  (forall bits, exists g, findGlyph bits flags = Some g /\ 32 <= codepoint g)
  /\ (exists r, findCharData image x0 y0 flags = Some r /\ 32 <= codePoint r)
  /\ (exists r, cellCharData image x0 y0 flags = Some r /\ 32 <= codePoint r).
Proof.
  assert (Hsearch : forall bits, exists g,
             findGlyph bits flags = Some g /\ 32 <= codepoint g).
  { intros bits.
    destruct (findGlyph_cases bits flags) as (g & Hg & _ & Hsel).
    exists g. split; [exact Hg|].
    destruct Hsel as [->|(Hin & _)]; [cbn; lia|].
    apply (candidates_non_sentinel flags _ Hin). }
  assert (Hfind : exists r,
             findCharData image x0 y0 flags = Some r /\ 32 <= codePoint r).
  { unfold findCharData, findCharBlock.
    destruct (Hsearch (block_bits (block_pixels image x0 y0)))
      as (g & Hg & Hcp).
    rewrite Hg. eexists. split; [reflexivity|].
    destruct (block_direct (block_pixels image x0 y0)); exact Hcp. }
  split; [exact Hsearch|]. split; [exact Hfind|].
  unfold cellCharData. destruct (flag_set flags FLAG_NOOPT); [|exact Hfind].
  eexists. split; [reflexivity|].
  unfold createCharData, createCharBlock. cbn [codePoint]. lia.
Qed.

(** ** Claims about the block analysis *)

(** C3: direct mode is chosen exactly when [count2 > 16], where [count2]
    is the number of pixels of a most frequent colour [a] plus, when the
    block has a second distinct colour, the number of pixels of a most
    frequent colour [b] among the others; when all pixels have the colour
    [a] it is the number of pixels of [a] alone. *)
Theorem direct_iff_top_two_cover_half image x0 y0 :
  let px := block_pixels image x0 y0 in
  exists a, In a px /\ (forall c, freq px c <= freq px a) /\
    (((forall p, In p px -> p = a) /\ block_count2 px = freq px a)
     \/
     (exists b, In b px /\ b <> a /\
        (forall c, c <> a -> freq px c <= freq px b) /\
        block_count2 px = freq px a + freq px b)) /\
    (block_direct px = true <-> block_count2 px > 16).
Proof.
  cbn zeta.
  destruct (block_top_two_spec (block_pixels image x0 y0)
              (block_pixels_nonempty image x0 y0)
              (block_pixels_byte_range image x0 y0))
    as (a & Ha & _ & Hmax & Hcases).
  exists a. split; [exact Ha|]. split; [exact Hmax|]. split.
  - destruct Hcases as [(H1 & H2 & _)|(b & Hb & Hab & _ & H3 & H4)].
    + left. split; assumption.
    + right. exists b. repeat split; assumption.
  - unfold block_direct. change (Z.quot (8 * 4) 2) with 16.
    destruct (Z.gtb_spec (block_count2 (block_pixels image x0 y0)) 16);
      split; intros; try lia; try discriminate; reflexivity.
Qed.

(** The split-mode mask of any list of 32 byte-valued pixels. *)
Lemma split_bits_spec px :
  px <> [] -> Forall byte_range px -> length px = 32%nat ->
  exists lo hi,
    In (splitIndex px) channels /\
    is_chan_min px (splitIndex px) lo /\ is_chan_max px (splitIndex px) hi /\
    (forall i lo' hi', In i channels ->
       is_chan_min px i lo' -> is_chan_max px i hi' -> hi' - lo' <= hi - lo) /\
    splitValue px = lo + Z.quot (hi - lo) 2 /\
    0 <= split_bits px < 2 ^ 32 /\
    forall k, (k < 32)%nat ->
      Z.testbit (split_bits px) (31 - Z.of_nat k) =
      (chan (nth k px black) (splitIndex px) >? splitValue px).
Proof.
  intros Hne Hbytes Hlen.
  assert (Hmm : forall i, is_chan_min px i (chan (chan_min (block_stats px)) i)
                       /\ is_chan_max px i (chan (chan_max (block_stats px)) i))
    by (intros i; apply block_stats_min_max; assumption).
  assert (Hrange : forall i, In i channels ->
            0 <= chan (chan_max (block_stats px)) i
                 - chan (chan_min (block_stats px)) i).
  { intros i _. destruct (Hmm i) as [[L1 (p & Hp & Ep)] [U1 _]].
    specialize (U1 p Hp). lia. }
  pose proof (best_split_spec _ _ Hrange) as Hsp. cbn zeta in Hsp.
  change (fst (best_split (chan_min (block_stats px))
                          (chan_max (block_stats px))))
    with (splitIndex px) in Hsp.
  change (snd (best_split (chan_min (block_stats px))
                          (chan_max (block_stats px))))
    with (bestSplit px) in Hsp.
  destruct Hsp as (Hidx & Hbest & Hall).
  exists (chan (chan_min (block_stats px)) (splitIndex px)),
         (chan (chan_max (block_stats px)) (splitIndex px)).
  split; [exact Hidx|]. split; [apply Hmm|]. split; [apply Hmm|]. split.
  { intros i lo' hi' Hi Hlo Hhi.
    rewrite (is_chan_min_unique _ _ _ _ Hlo (proj1 (Hmm i))).
    rewrite (is_chan_max_unique _ _ _ _ Hhi (proj2 (Hmm i))).
    rewrite <- Hbest. apply Hall, Hi. }
  split; [unfold splitValue; rewrite Hbest; reflexivity|].
  unfold split_bits.
  destruct (collect_bits_spec
              (fun p => chan p (splitIndex px) >? splitValue px) black px)
    as [Hr Hb]; [lia|].
  rewrite Hlen in Hr, Hb. split; [exact Hr|].
  intros k Hk. specialize (Hb k Hk).
  replace (31 - Z.of_nat k) with (Z.of_nat 32 - 1 - Z.of_nat k) by lia.
  exact Hb.
Qed.

(** C4: in split mode the analyser takes a channel whose range
    [hi - lo] over the block (maximum minus minimum) is the largest, uses
    the threshold [lo + (hi - lo) / 2] with truncating division, and sets
    bit [31 - k] of the mask exactly when pixel [k] of the block, in
    row-major order, exceeds the threshold on that channel. *)
Theorem split_mask_threshold image x0 y0 :
  block_direct (block_pixels image x0 y0) = false ->
  exists lo hi,
    In (splitIndex (block_pixels image x0 y0)) channels /\
    is_chan_min (block_pixels image x0 y0)
                (splitIndex (block_pixels image x0 y0)) lo /\
    is_chan_max (block_pixels image x0 y0)
                (splitIndex (block_pixels image x0 y0)) hi /\
    (forall i lo' hi', In i channels ->
       is_chan_min (block_pixels image x0 y0) i lo' ->
       is_chan_max (block_pixels image x0 y0) i hi' ->
       hi' - lo' <= hi - lo) /\
    splitValue (block_pixels image x0 y0) = lo + Z.quot (hi - lo) 2 /\
    0 <= block_bits (block_pixels image x0 y0) < 2 ^ 32 /\
    forall k, (k < 32)%nat ->
      Z.testbit (block_bits (block_pixels image x0 y0)) (31 - Z.of_nat k) =
      (chan (nth k (block_pixels image x0 y0) black)
            (splitIndex (block_pixels image x0 y0))
       >? splitValue (block_pixels image x0 y0)).
Proof.
  intros Hsplit. unfold block_bits. rewrite Hsplit.
  apply split_bits_spec.
  - apply block_pixels_nonempty.
  - apply block_pixels_byte_range.
  - apply block_pixels_length.
Qed.

Lemma split_mask_threshold_witness :
  block_direct (block_pixels gradient_image 0 0) = false /\
  exists lo hi,
    In (splitIndex (block_pixels gradient_image 0 0)) channels /\
    is_chan_min (block_pixels gradient_image 0 0)
                (splitIndex (block_pixels gradient_image 0 0)) lo /\
    is_chan_max (block_pixels gradient_image 0 0)
                (splitIndex (block_pixels gradient_image 0 0)) hi /\
    (forall i lo' hi', In i channels ->
       is_chan_min (block_pixels gradient_image 0 0) i lo' ->
       is_chan_max (block_pixels gradient_image 0 0) i hi' ->
       hi' - lo' <= hi - lo) /\
    splitValue (block_pixels gradient_image 0 0) = lo + Z.quot (hi - lo) 2 /\
    0 <= block_bits (block_pixels gradient_image 0 0) < 2 ^ 32 /\
    forall k, (k < 32)%nat ->
      Z.testbit (block_bits (block_pixels gradient_image 0 0))
                (31 - Z.of_nat k) =
      (chan (nth k (block_pixels gradient_image 0 0) black)
            (splitIndex (block_pixels gradient_image 0 0))
       >? splitValue (block_pixels gradient_image 0 0)).
Proof.
  split; [vm_compute; reflexivity|].
  refine (split_mask_threshold gradient_image 0 0 _).
  vm_compute; reflexivity.
Defined.

(** C7: the colours [createCharData] returns are, for each bucket of the
    pattern, black [(0, 0, 0)] when the bucket has no pixel and otherwise
    the per-channel sum of its pixels divided, with truncation, by their
    number. *)
Theorem createCharData_bucket_colors image x0 y0 cp pattern :
  let px := block_pixels image x0 y0 in
  let r := createCharData image x0 y0 cp pattern in
  fgColor r = bucket_color (bucket true pattern px) /\
  bgColor r = bucket_color (bucket false pattern px) /\
  codePoint r = cp /\
  bucket_color [] = mkRGB 0 0 0.
Proof.
  cbn zeta. unfold createCharData.
  rewrite createCharBlock_buckets
    by (rewrite block_pixels_length; lia).
  repeat split.
Qed.

(** ** The flat block *)

Lemma flat_block_analysis :
  let px := repeat (mkRGB 10 20 30) 32 in
  block_direct px = true /\ block_count2 px = 32 /\
  color_per_count (count_per_color (block_stats px)) = [(32, 0x0a141e)] /\
  max_count_color_1 px = 0x0a141e /\ max_count_color_2 px = 0x0a141e /\
  block_bits px = 0 /\ unpack_rgb 0x0a141e = mkRGB 10 20 30.
Proof. vm_compute. repeat split. Qed.

Lemma flat_block_result flags :
  exists g,
    findGlyph 0 flags = Some g /\
    findCharBlock (repeat (mkRGB 10 20 30) 32) flags =
    Some {| fgColor := mkRGB 10 20 30; bgColor := mkRGB 10 20 30;
            codePoint := codepoint g |}.
Proof.
  destruct flat_block_analysis as (Hd & _ & _ & H1 & H2 & Hb & Hu).
  destruct (findGlyph_cases 0 flags) as (g & Hg & _).
  exists g. split; [exact Hg|].
  unfold findCharBlock. rewrite Hb, Hg, Hd, H1, H2.
  unfold direct_result. destruct (inverted g); rewrite Hu; reflexivity.
Qed.

(** C9: a block whose 32 pixels all are (10, 20, 30) is analysed in direct
    mode; the only entry of the count table is 32 pixels of that colour, so
    the top count is 32 and both colours are (10, 20, 30); the resulting
    cell has that colour as foreground and as background, whatever glyph
    the search returns and whatever the flags. *)
Theorem flat_block_direct image x0 y0 flags :
  Forall (eq (mkRGB 10 20 30)) (block_pixels image x0 y0) ->
  block_direct (block_pixels image x0 y0) = true /\
  block_count2 (block_pixels image x0 y0) = 32 /\
  color_per_count (count_per_color (block_stats (block_pixels image x0 y0)))
  = [(32, color_key (mkRGB 10 20 30))] /\
  unpack_rgb (max_count_color_1 (block_pixels image x0 y0)) = mkRGB 10 20 30 /\
  unpack_rgb (max_count_color_2 (block_pixels image x0 y0)) = mkRGB 10 20 30 /\
  (forall g,
     direct_result (max_count_color_1 (block_pixels image x0 y0))
                   (max_count_color_2 (block_pixels image x0 y0)) g =
     {| fgColor := mkRGB 10 20 30; bgColor := mkRGB 10 20 30;
        codePoint := codepoint g |}) /\
  exists r, findCharData image x0 y0 flags = Some r /\
            fgColor r = mkRGB 10 20 30 /\ bgColor r = mkRGB 10 20 30.
Proof.
  intros H. apply Forall_eq_repeat in H.
  rewrite block_pixels_length in H. unfold findCharData. rewrite H.
  destruct flat_block_analysis as (Hd & Hc & Hm & H1 & H2 & _ & Hu).
  rewrite Hd, Hc, Hm, H1, H2, Hu.
  repeat split.
  - intros g. unfold direct_result.
    destruct (inverted g); rewrite Hu; reflexivity.
  - destruct (flat_block_result flags) as (g & _ & Hr).
    rewrite Hr. eexists. repeat split.
Qed.

Lemma flat_block_direct_witness :
  Forall (eq (mkRGB 10 20 30)) (block_pixels flat_image 0 0) /\
  exists r, findCharData flat_image 0 0 0 = Some r /\
            fgColor r = mkRGB 10 20 30 /\ bgColor r = mkRGB 10 20 30.
Proof.
  assert (H : Forall (eq (mkRGB 10 20 30)) (block_pixels flat_image 0 0))
    by (vm_compute; repeat constructor).
  split; [exact H|].
  apply (flat_block_direct flat_image 0 0 0 H).
Defined.

(** ** Claims about the colour quantizer *)

Lemma clamp_byte_range v : 0 <= clamp_byte v <= 255.
Proof.
  unfold clamp_byte. destruct (Z.ltb_spec v 0); [lia|].
  destruct (Z.gtb_spec v 255); lia.
Qed.

Lemma best_index_from_range value steps : forall i result d,
  0 <= result < i ->
  0 <= best_index_from value steps i result d < i + Z.of_nat (length steps).
Proof.
  induction steps as [|s rest IH]; intros i result d H; cbn [best_index_from].
  - cbn [length]. lia.
  - cbn [length]. destruct (Z.abs (s - value) <? d).
    + specialize (IH (i + 1) i (Z.abs (s - value))). lia.
    + specialize (IH (i + 1) result d). lia.
Qed.

Lemma best_index_range value STEPS :
  STEPS <> [] ->
  0 <= best_index value STEPS (Z.of_nat (length STEPS))
    < Z.of_nat (length STEPS).
Proof.
  intros Hne. unfold best_index. rewrite Nat2Z.id, firstn_all.
  destruct STEPS as [|s0 rest]; [contradiction Hne; reflexivity|].
  pose proof (best_index_from_range value rest 1 0 (Z.abs (s0 - value))).
  cbn [length]. lia.
Qed.

Lemma color_index_range value :
  0 <= best_index value COLOR_STEPS COLOR_STEP_COUNT <= 5.
Proof.
  pose proof (best_index_range value COLOR_STEPS ltac:(discriminate)) as H.
  change (Z.of_nat (length COLOR_STEPS)) with COLOR_STEP_COUNT in H.
  unfold COLOR_STEP_COUNT in *. lia.
Qed.

Lemma gray_index_range value :
  0 <= best_index value GRAYSCALE_STEPS GRAYSCALE_STEP_COUNT <= 23.
Proof.
  pose proof (best_index_range value GRAYSCALE_STEPS ltac:(discriminate)) as H.
  change (Z.of_nat (length GRAYSCALE_STEPS)) with GRAYSCALE_STEP_COUNT in H.
  unfold GRAYSCALE_STEP_COUNT in *. lia.
Qed.

(** C5: in 256-colour mode the palette index emitted is either
    [16 + 36 * ri + 6 * gi + bi] with the three step indices in [0, 5], or
    [232 + gri] with [gri] in [0, 23], hence in [16, 255]; in true-colour
    mode the three channel values emitted are the clamped inputs, each in
    [0, 255].  This holds whatever the floating-point luma and error
    comparison yield. *)
Theorem emitted_colors_in_range luma cube_closer flags r g b :
  emitTermColor luma cube_closer flags r g b =
  format_term_color (termColor luma cube_closer flags r g b) /\
  match termColor luma cube_closer flags r g b with
  | TrueColor sel r' g' b' =>
      flag_set flags FLAG_MODE_256 = false /\
      r' = clamp_byte r /\ g' = clamp_byte g /\ b' = clamp_byte b /\
      0 <= r' <= 255 /\ 0 <= g' <= 255 /\ 0 <= b' <= 255
  | PaletteColor sel idx =>
      flag_set flags FLAG_MODE_256 = true /\
      16 <= idx <= 255 /\
      ((exists ri gi bi,
          0 <= ri <= 5 /\ 0 <= gi <= 5 /\ 0 <= bi <= 5 /\
          idx = 16 + 36 * ri + 6 * gi + bi)
       \/ (exists gri, 0 <= gri <= 23 /\ idx = 232 + gri))
  end.
Proof.
  split; [reflexivity|]. unfold termColor.
  destruct (flag_set flags FLAG_MODE_256); cbn [negb].
  - split; [reflexivity|].
    set (ri := best_index (clamp_byte r) COLOR_STEPS COLOR_STEP_COUNT).
    set (gi := best_index (clamp_byte g) COLOR_STEPS COLOR_STEP_COUNT).
    set (bi := best_index (clamp_byte b) COLOR_STEPS COLOR_STEP_COUNT).
    set (gri := best_index _ GRAYSCALE_STEPS GRAYSCALE_STEP_COUNT).
    assert (Hr : 0 <= ri <= 5) by apply color_index_range.
    assert (Hg : 0 <= gi <= 5) by apply color_index_range.
    assert (Hb : 0 <= bi <= 5) by apply color_index_range.
    assert (Hgr : 0 <= gri <= 23) by apply gray_index_range.
    clearbody ri gi bi gri.
    destruct (cube_closer _ _ _ _ _ _ _).
    + split; [lia|]. left. exists ri, gi, bi. repeat split; lia.
    + split; [lia|]. right. exists gri. repeat split; lia.
  - pose proof (clamp_byte_range r). pose proof (clamp_byte_range g).
    pose proof (clamp_byte_range b). repeat split; lia.
Qed.

(** * Further properties *)

(** ** The bytes written for a code point *)

Lemma lor_add c k x :
  0 <= k -> 0 <= x < 2 ^ k -> Z.lor (c * 2 ^ k) x = c * 2 ^ k + x.
Proof.
  intros Hk Hx.
  assert (H : Z.land (c * 2 ^ k) x = 0).
  { apply Z.bits_inj'. intros n Hn. rewrite Z.land_spec, Z.bits_0.
    destruct (Z.lt_ge_cases n k).
    - rewrite Z.mul_pow2_bits_low by lia. reflexivity.
    - rewrite <- (Z.mod_small x (2 ^ k)) by lia.
      rewrite Z.mod_pow2_bits_high by lia. apply andb_false_r. }
  rewrite <- Z.lxor_lor by exact H.
  rewrite <- Z.add_nocarry_lxor by exact H. reflexivity.
Qed.

Lemma lead2_byte x : 0 <= x < 32 -> char_cast (Z.lor 0xc0 x) = 0xc0 + x.
Proof.
  intros H. change 0xc0 with (3 * 2 ^ 6). rewrite lor_add by lia.
  unfold char_cast. apply Z.mod_small. lia.
Qed.

Lemma lead3_byte x : 0 <= x < 16 -> char_cast (Z.lor 0xe0 x) = 0xe0 + x.
Proof.
  intros H. change 0xe0 with (7 * 2 ^ 5). rewrite lor_add by lia.
  unfold char_cast. apply Z.mod_small. lia.
Qed.

Lemma lead4_byte x : 0 <= x < 8 -> char_cast (Z.lor 0xf0 x) = 0xf0 + x.
Proof.
  intros H. change 0xf0 with (15 * 2 ^ 4). rewrite lor_add by lia.
  unfold char_cast. apply Z.mod_small. lia.
Qed.

Lemma continuation_byte x :
  char_cast (Z.lor 0x80 (Z.land x 0x3f)) = 0x80 + x mod 64.
Proof.
  change 0x3f with (Z.ones 6). rewrite Z.land_ones by lia.
  change (2 ^ 6) with 64. pose proof (Z.mod_pos_bound x 64 ltac:(lia)).
  change 0x80 with (2 * 2 ^ 6). rewrite lor_add by (change (2 ^ 6) with 64; lia).
  unfold char_cast. apply Z.mod_small. change (2 ^ 6) with 64. lia.
Qed.

(** The branches in arithmetic form. *)
Lemma codepoint_branches_bytes cp err :
  codepoint_branches cp err =
  if cp <? 128 then Chars [cp mod 256]
  else if cp <? 0x7ff then Chars [0xc0 + cp / 64; 0x80 + cp mod 64]
  else if cp <? 0xffff then
    Chars [0xe0 + cp / 4096; 0x80 + (cp / 64) mod 64; 0x80 + cp mod 64]
  else if cp <? 0x10ffff then
    Chars [0xf0 + cp / 262144; 0x80 + (cp / 4096) mod 64;
           0x80 + (cp / 64) mod 64; 0x80 + cp mod 64]
  else err.
Proof.
  unfold codepoint_branches.
  destruct (Z.ltb_spec cp 128); [reflexivity|].
  rewrite !continuation_byte, !Z.shiftr_div_pow2 by lia.
  change (2 ^ 6) with 64. change (2 ^ 12) with 4096.
  change (2 ^ 18) with 262144.
  destruct (Z.ltb_spec cp 0x7ff).
  { rewrite lead2_byte; [reflexivity|].
    split; [apply Z.div_pos; lia | apply Z.div_lt_upper_bound; lia]. }
  destruct (Z.ltb_spec cp 0xffff).
  { rewrite lead3_byte; [reflexivity|].
    split; [apply Z.div_pos; lia | apply Z.div_lt_upper_bound; lia]. }
  destruct (Z.ltb_spec cp 0x10ffff); [|reflexivity].
  rewrite lead4_byte; [reflexivity|].
  split; [apply Z.div_pos; lia | apply Z.div_lt_upper_bound; lia].
Qed.

Lemma div_mod_64 x : x = 64 * (x / 64) + x mod 64 /\ 0 <= x mod 64 < 64.
Proof.
  split; [apply Z.div_mod; lia | apply Z.mod_pos_bound; lia].
Qed.

Lemma div_64_64 x : x / 64 / 64 = x / 4096.
Proof. rewrite Z.div_div by lia. reflexivity. Qed.

Lemma div_4096_64 x : x / 4096 / 64 = x / 262144.
Proof. rewrite Z.div_div by lia. reflexivity. Qed.

(** Reading back what is written, for the code points that are written. *)
Lemma codepoint_branches_decode cp err :
  0 <= cp < 0x10ffff ->
  exists bytes,
    codepoint_branches cp err = Chars bytes /\
    utf8_decode bytes = Some cp /\
    Forall (fun b => 0 <= b <= 255) bytes /\
    Z.of_nat (length bytes) =
    utf8_length cp + (if (cp =? 0x7ff) || (cp =? 0xffff) then 1 else 0).
Proof.
  intros Hcp. rewrite codepoint_branches_bytes. unfold utf8_length.
  destruct (div_mod_64 cp) as [E0 B0].
  destruct (div_mod_64 (cp / 64)) as [E1 B1].
  destruct (div_mod_64 (cp / 4096)) as [E2 B2].
  rewrite div_64_64 in E1. rewrite div_4096_64 in E2.
  assert (Hq0 : 0 <= cp / 64) by (apply Z.div_pos; lia).
  assert (Hq1 : 0 <= cp / 4096) by (apply Z.div_pos; lia).
  assert (Hq2 : 0 <= cp / 262144) by (apply Z.div_pos; lia).
  destruct (Z.ltb_spec cp 128).
  { eexists. split; [reflexivity|]. rewrite Z.mod_small by lia.
    unfold utf8_decode.
    destruct (Z.leb_spec 0 cp), (Z.ltb_spec cp 0x80); try lia.
    destruct (Z.eqb_spec cp 0x7ff), (Z.eqb_spec cp 0xffff); try lia.
    cbn [andb orb length]. repeat split; repeat constructor; lia. }
  destruct (Z.ltb_spec cp 0x7ff).
  { eexists. split; [reflexivity|]. unfold utf8_decode, is_continuation.
    repeat match goal with
    | |- context [?a <=? ?b] => destruct (Z.leb_spec a b); try lia
    | |- context [?a <? ?b] => destruct (Z.ltb_spec a b); try lia
    | |- context [?a =? ?b] => destruct (Z.eqb_spec a b); try lia
    end.
    cbn [andb orb length]. repeat split; repeat constructor; try lia.
    f_equal. lia. }
  destruct (Z.ltb_spec cp 0xffff).
  { eexists. split; [reflexivity|]. unfold utf8_decode, is_continuation.
    repeat match goal with
    | |- context [?a <=? ?b] => destruct (Z.leb_spec a b); try lia
    | |- context [?a <? ?b] => destruct (Z.ltb_spec a b); try lia
    | |- context [?a =? ?b] => destruct (Z.eqb_spec a b); try lia
    end;
    cbn [andb orb length]; repeat split; repeat constructor; try lia;
    f_equal; lia. }
  destruct (Z.ltb_spec cp 0x10ffff); [|lia].
  eexists. split; [reflexivity|]. unfold utf8_decode, is_continuation.
  repeat match goal with
  | |- context [?a <=? ?b] => destruct (Z.leb_spec a b); try lia
  | |- context [?a <? ?b] => destruct (Z.ltb_spec a b); try lia
  | |- context [?a =? ?b] => destruct (Z.eqb_spec a b); try lia
  end;
  cbn [andb orb length]; repeat split; repeat constructor; try lia;
  f_equal; lia.
Qed.

(** X1: every code point from 0 up to, but not including, [0x10ffff] is
    written by [printCodepoint] and by [emitCodepoint] as the same bytes,
    each in the range of a byte, and a UTF-8 reader gets the code point
    back from them. *)
Theorem printCodepoint_round_trip cp :
  0 <= cp < 0x10ffff ->
  exists bytes,
    printCodepoint cp = Chars bytes /\ emitCodepoint cp = Chars bytes /\
    Forall (fun b => 0 <= b <= 255) bytes /\
    utf8_decode bytes = Some cp.
Proof.
  intros Hcp. unfold printCodepoint, emitCodepoint.
  destruct (codepoint_branches_decode cp (Error "ERROR") Hcp)
    as (bytes & Hb & Hd & Hr & _).
  exists bytes. split; [|auto].
  rewrite codepoint_branches_bytes in Hb |- *.
  repeat match goal with
  | |- context [cp <? ?b] => destruct (Z.ltb_spec cp b); try exact Hb
  end. lia.
Qed.

Lemma printCodepoint_round_trip_witness :
  0 <= 0x2584 < 0x10ffff /\
  exists bytes,
    printCodepoint 0x2584 = Chars bytes /\ emitCodepoint 0x2584 = Chars bytes /\
    Forall (fun b => 0 <= b <= 255) bytes /\
    utf8_decode bytes = Some 0x2584.
Proof.
  assert (H : 0 <= 0x2584 < 0x10ffff) by lia.
  split; [exact H|]. apply (printCodepoint_round_trip 0x2584 H).
Defined.

(** X2: the number of bytes [printCodepoint] writes for a code point below
    [0x10ffff] is the length of its shortest UTF-8 form, except for
    [0x7ff] and [0xffff], which the comparisons [< 0x7ff] and [< 0xffff]
    send to the next longer form: they take one byte more. *)
Theorem printCodepoint_length cp :
  0 <= cp < 0x10ffff ->
  exists bytes,
    printCodepoint cp = Chars bytes /\
    Z.of_nat (length bytes) =
    utf8_length cp + (if (cp =? 0x7ff) || (cp =? 0xffff) then 1 else 0).
Proof.
  intros Hcp. unfold printCodepoint.
  destruct (codepoint_branches_decode cp
              (Error ("Error: Codepoint 0x" ++ hex8 cp
                      ++ " is out of range, skipping this pixel")%string) Hcp)
    as (bytes & Hb & _ & _ & Hl).
  exists bytes. split; assumption.
Qed.

Lemma printCodepoint_length_witness :
  0 <= 0x7ff < 0x10ffff /\
  exists bytes,
    printCodepoint 0x7ff = Chars bytes /\
    Z.of_nat (length bytes) =
    utf8_length 0x7ff + (if (0x7ff =? 0x7ff) || (0x7ff =? 0xffff) then 1 else 0).
Proof.
  assert (H : 0 <= 0x7ff < 0x10ffff) by lia.
  split; [exact H|]. apply (printCodepoint_length 0x7ff H).
Defined.

(** X3: from [0x10ffff] on, the last Unicode code point included, nothing
    is written to the output: [printCodepoint] reports the code point in
    hexadecimal on the error stream and [emitCodepoint] writes [ERROR]
    there. *)
Theorem codepoint_out_of_range cp :
  0x10ffff <= cp ->
  printCodepoint cp =
  Error ("Error: Codepoint 0x" ++ hex8 cp
         ++ " is out of range, skipping this pixel")%string /\
  emitCodepoint cp = Error "ERROR" /\
  output_text (OutGlyph (printCodepoint cp)) = EmptyString.
Proof.
  intros Hcp.
  assert (E : forall err, codepoint_branches cp err = err).
  { intros err. unfold codepoint_branches.
    repeat match goal with
    | |- context [cp <? ?b] => destruct (Z.ltb_spec cp b); try lia
    end. reflexivity. }
  unfold printCodepoint, emitCodepoint. rewrite !E. repeat split.
Qed.

Lemma codepoint_out_of_range_witness :
  0x10ffff <= 0x10ffff /\
  printCodepoint 0x10ffff =
  Error "Error: Codepoint 0x0010ffff is out of range, skipping this pixel" /\
  emitCodepoint 0x10ffff = Error "ERROR" /\
  output_text (OutGlyph (printCodepoint 0x10ffff)) = EmptyString.
Proof.
  assert (H : 0x10ffff <= 0x10ffff) by lia.
  split; [exact H|]. apply (codepoint_out_of_range 0x10ffff H).
Defined.

Lemma candidates_cases flags :
  candidates flags = candidates 0 \/ candidates flags = candidates FLAG_TELETEXT.
Proof.
  unfold candidates, active_range.
  change (end_marker 0) with 0. change (end_marker FLAG_TELETEXT) with 1.
  unfold end_marker.
  destruct (flag_set flags FLAG_TELETEXT); [right | left]; reflexivity.
Qed.

(** A check that holds for the entries of both ranges holds for the
    candidates of any flags. *)
Lemma candidates_forallb (f : Z * Z -> bool) flags e :
  forallb f (candidates 0) = true ->
  forallb f (candidates FLAG_TELETEXT) = true ->
  In e (candidates flags) -> f e = true.
Proof.
  intros H0 H1 He. rewrite forallb_forall in H0, H1.
  destruct (candidates_cases flags) as [E|E]; rewrite E in He.
  - exact (H0 e He).
  - exact (H1 e He).
Qed.

Lemma findGlyph_codepoint_range bits flags :
  exists g, findGlyph bits flags = Some g /\
            0x80 <= codepoint g < 0xffff /\ codepoint g <> 0x7ff.
Proof.
  destruct (findGlyph_cases bits flags) as (g & Hg & _ & Hsel).
  exists g. split; [exact Hg|].
  destruct Hsel as [->|(Hin & _)]; [cbn; lia|].
  assert (H := candidates_forallb
                 (fun e => (0x80 <=? snd e) && (snd e <? 0xffff)
                           && negb (snd e =? 0x7ff)) flags _
                 ltac:(vm_compute; reflexivity) ltac:(vm_compute; reflexivity)
                 Hin).
  cbn [snd] in H. apply andb_true_iff in H. destruct H as [H H3].
  apply andb_true_iff in H. destruct H as [H1 H2].
  apply Z.leb_le in H1. apply Z.ltb_lt in H2.
  apply negb_true_iff, Z.eqb_neq in H3. lia.
Qed.

(** X4: whatever the mask and the flags, the code point the glyph search
    returns is written by [printCodepoint] as its shortest UTF-8 form, of
    two or three bytes, which reads back as that code point; the error
    branch is never taken for it. *)
Theorem glyph_is_printable bits flags :
  exists g bytes,
    findGlyph bits flags = Some g /\
    printCodepoint (codepoint g) = Chars bytes /\
    utf8_decode bytes = Some (codepoint g) /\
    Z.of_nat (length bytes) = utf8_length (codepoint g) /\
    2 <= utf8_length (codepoint g) <= 3.
Proof.
  destruct (findGlyph_codepoint_range bits flags) as (g & Hg & Hr & Hne).
  unfold printCodepoint.
  destruct (codepoint_branches_decode (codepoint g)
              (Error ("Error: Codepoint 0x" ++ hex8 (codepoint g)
                      ++ " is out of range, skipping this pixel")%string))
    as (bytes & Hb & Hd & _ & Hl); [lia|].
  exists g, bytes. repeat split; auto.
  - rewrite Hl.
    destruct (Z.eqb_spec (codepoint g) 0x7ff); [contradiction|].
    destruct (Z.eqb_spec (codepoint g) 0xffff); [lia|]. cbn [orb]. lia.
  - unfold utf8_length. destruct (Z.ltb_spec (codepoint g) 0x80); [lia|].
    destruct (Z.ltb_spec (codepoint g) 0x800); [lia|].
    destruct (Z.ltb_spec (codepoint g) 0x10000); lia.
  - unfold utf8_length. destruct (Z.ltb_spec (codepoint g) 0x80); [lia|].
    destruct (Z.ltb_spec (codepoint g) 0x800); [lia|].
    destruct (Z.ltb_spec (codepoint g) 0x10000); lia.
Qed.

(** ** More on the glyph search *)

Lemma popcount32_complement x y :
  (forall i, 0 <= i < 32 -> Z.testbit y i = negb (Z.testbit x i)) ->
  popcount32 x + popcount32 y = 32.
Proof.
  intros H. unfold popcount32.
  assert (Hl : forall i, In i bit_positions ->
                         Z.testbit y i = negb (Z.testbit x i))
    by (intros i Hi; apply H, bit_positions_range, Hi).
  change 32 with (Z.of_nat (length bit_positions)).
  induction bit_positions as [|i l IH]; [reflexivity|].
  cbn [fold_right length]. rewrite (Hl i) by (left; reflexivity).
  specialize (IH (fun j Hj => Hl j (or_intror Hj))).
  destruct (Z.testbit x i); cbn [negb]; lia.
Qed.

(** X5: for any pattern and mask, the number of bits in which the pattern
    differs from the mask and the number in which its complement differs
    add up to 32; so the two comparisons made for an entry are never both
    below 16, and at most one of them can beat the initial difference
    of 8. *)
Theorem hamming_complement p bits :
  hamming p bits + hamming (not32 p) bits = 32 /\
  ~ (hamming p bits < 8 /\ hamming (not32 p) bits < 8).
Proof.
  assert (H : hamming p bits + hamming (not32 p) bits = 32).
  { apply popcount32_complement. intros i Hi.
    rewrite !Z.lxor_spec, not32_testbit by exact Hi.
    destruct (Z.testbit p i), (Z.testbit bits i); reflexivity. }
  split; [exact H | lia].
Qed.

Lemma popcount32_zero x i :
  popcount32 x = 0 -> 0 <= i < 32 -> Z.testbit x i = false.
Proof.
  unfold popcount32. intros H Hi.
  assert (Hin : In i bit_positions).
  { unfold bit_positions. apply in_map_iff. exists (Z.to_nat i).
    split; [lia | apply in_seq; lia]. }
  assert (Hnn : forall l, 0 <= fold_right
            (fun i n => (if Z.testbit x i then 1 else 0) + n) 0 l).
  { induction l as [|j l IH]; cbn [fold_right]; [lia|].
    destruct (Z.testbit x j); lia. }
  induction bit_positions as [|j l IH]; [contradiction|].
  cbn [fold_right] in H. specialize (Hnn l).
  destruct Hin as [->|Hin].
  - destruct (Z.testbit x i); [lia | reflexivity].
  - apply IH; [|exact Hin]. destruct (Z.testbit x j); lia.
Qed.

Lemma hamming_zero_eq a b :
  0 <= a < 2 ^ 32 -> 0 <= b < 2 ^ 32 -> hamming a b = 0 -> a = b.
Proof.
  intros Ha Hb H. apply Z.bits_inj'. intros n Hn.
  destruct (Z.lt_ge_cases n 32) as [Hlt|Hge].
  - assert (E := popcount32_zero _ n H ltac:(lia)).
    rewrite Z.lxor_spec in E.
    destruct (Z.testbit a n), (Z.testbit b n); try reflexivity; discriminate.
  - rewrite <- (Z.mod_small a (2 ^ 32)), <- (Z.mod_small b (2 ^ 32)) by lia.
    rewrite !Z.mod_pow2_bits_high by lia. reflexivity.
Qed.

Lemma hamming_self a : hamming a a = 0.
Proof.
  unfold hamming. rewrite Z.lxor_nilpotent. reflexivity.
Qed.

Lemma not32_range x : 0 <= not32 x < 2 ^ 32.
Proof. unfold not32, wrap32. apply Z.mod_pos_bound. lia. Qed.

Lemma candidates_pattern_range flags e :
  In e (candidates flags) -> 0 <= fst e < 2 ^ 32.
Proof.
  intros He.
  assert (H := candidates_forallb
                 (fun e => (0 <=? fst e) && (fst e <? 2 ^ 32)) flags e
                 ltac:(vm_compute; reflexivity) ltac:(vm_compute; reflexivity)
                 He).
  cbn beta in H. apply andb_true_iff in H. destruct H as [H1 H2].
  apply Z.leb_le in H1. apply Z.ltb_lt in H2. lia.
Qed.

Lemma compared_pattern_range flags g :
  In (best_pattern g, codepoint g) (candidates flags) ->
  0 <= compared_pattern g < 2 ^ 32.
Proof.
  intros H. apply candidates_pattern_range in H. cbn [fst] in H.
  unfold compared_pattern. destruct (inverted g); [apply not32_range | exact H].
Qed.

Lemma exact_match bits flags e :
  In e (candidates flags) -> 0 <= bits < 2 ^ 32 ->
  hamming (fst e) bits = 0 \/ hamming (not32 (fst e)) bits = 0 ->
  exists g, findGlyph bits flags = Some g /\ best_diff g = 0 /\
            compared_pattern g = bits /\
            In (best_pattern g, codepoint g) (candidates flags).
Proof.
  intros He Hbits Hz.
  destruct (findGlyph_cases bits flags) as (g & Hg & Hall & Hsel).
  exists g. split; [exact Hg|].
  destruct (Hall e He) as [H1 H2].
  assert (Hd : best_diff g = 0).
  { destruct Hsel as [->|(_ & Hd & _)].
    - cbn [best_diff initial_best] in H1, H2. lia.
    - pose proof (popcount32_bounds (Z.lxor (compared_pattern g) bits)).
      unfold hamming in Hd. lia. }
  destruct Hsel as [->|(Hin & Hh & _)]; [discriminate Hd|].
  repeat split; auto.
  apply hamming_zero_eq;
    [apply (compared_pattern_range flags), Hin | exact Hbits | lia].
Qed.

(** X6: when the mask is the pattern of a non-sentinel entry of the active
    range, or the complement of one, the search returns a difference of 0
    and the pattern its winning comparison used is the mask itself: the
    glyph, inverted if the flag says so, reproduces the mask bit for bit.
    The entry returned need not be the given one. *)
Theorem exact_match_reproduces_mask flags e :
  In e (candidates flags) ->
  (exists g, findGlyph (fst e) flags = Some g /\ best_diff g = 0 /\
             compared_pattern g = fst e /\
             In (best_pattern g, codepoint g) (candidates flags)) /\
  (exists g, findGlyph (not32 (fst e)) flags = Some g /\ best_diff g = 0 /\
             compared_pattern g = not32 (fst e) /\
             In (best_pattern g, codepoint g) (candidates flags)).
Proof.
  intros He. split.
  - apply (exact_match _ _ e He (candidates_pattern_range flags e He)).
    left. apply hamming_self.
  - apply (exact_match _ _ e He (not32_range (fst e))).
    right. apply hamming_self.
Qed.

Lemma exact_match_reproduces_mask_witness :
  In (0xfff00000, 0xfb02) (candidates FLAG_TELETEXT) /\
  (exists g, findGlyph 0xfff00000 FLAG_TELETEXT = Some g /\ best_diff g = 0 /\
             compared_pattern g = 0xfff00000 /\
             In (best_pattern g, codepoint g) (candidates FLAG_TELETEXT)) /\
  (exists g, findGlyph (not32 0xfff00000) FLAG_TELETEXT = Some g /\
             best_diff g = 0 /\
             compared_pattern g = not32 0xfff00000 /\
             In (best_pattern g, codepoint g) (candidates FLAG_TELETEXT)).
Proof.
  assert (H : In (0xfff00000, 0xfb02) (candidates FLAG_TELETEXT)).
  { assert (E : existsb (fun e' => (0xfff00000 =? fst e') && (0xfb02 =? snd e'))
                  (candidates FLAG_TELETEXT) = true) by (vm_compute; reflexivity).
    apply existsb_exists in E. destruct E as ([p c] & Hin & E).
    apply andb_true_iff in E. cbn [fst snd] in E. destruct E as [E1 E2].
    apply Z.eqb_eq in E1, E2. subst. exact Hin. }
  split; [exact H|].
  apply (exact_match_reproduces_mask FLAG_TELETEXT (0xfff00000, 0xfb02) H).
Defined.

(** With the extended range on, the mask [0xfff00000] is the pattern of
    the extended entry [0xfb02], but the search returns the earlier
    standard entry [0x2585], whose complement is the same mask. *)
Example exact_match_earlier_entry :
  findGlyph 0xfff00000 FLAG_TELETEXT =
  Some {| best_diff := 0; best_pattern := 0x000fffff; codepoint := 0x2585;
          inverted := true |}.
Proof. vm_compute. reflexivity. Qed.

Lemma compare_entry_polarity entry cp bits st :
  let r := compare_entry entry cp bits st in
  r = st \/
  (best_pattern r = entry /\ codepoint r = cp /\ best_diff r < best_diff st /\
   ((inverted r = false /\ best_diff r = hamming entry bits /\
     best_diff r <= hamming (not32 entry) bits)
    \/
    (inverted r = true /\ best_diff r = hamming (not32 entry) bits /\
     best_diff r < hamming entry bits))).
Proof.
  unfold compare_entry.
  destruct (compare_pattern_cases entry cp entry bits st) as [[H1 E1]|[H1 E1]];
    rewrite E1;
    match goal with
    | |- context [compare_pattern ?e ?c ?p ?b ?s] =>
        destruct (compare_pattern_cases e c p b s) as [[H2 E2]|[H2 E2]]
    end; rewrite E2; cbn [best_diff] in *; cbn zeta;
    cbn [best_diff best_pattern codepoint inverted].
  - right. pose proof (not32_neq entry). repeat split; lia.
  - right. repeat split; lia.
  - right. pose proof (not32_neq entry). repeat split; lia.
  - left. reflexivity.
Qed.

Lemma scan_entries_first bits es : forall st,
  let r := scan_entries bits es st in
  r = st \/
  exists l1 l2,
    es = l1 ++ (best_pattern r, codepoint r) :: l2 /\
    best_diff r < best_diff st /\
    (forall e, In e l1 ->
       best_diff r < hamming (fst e) bits /\
       best_diff r < hamming (not32 (fst e)) bits) /\
    ((inverted r = false /\ best_diff r = hamming (best_pattern r) bits /\
      best_diff r <= hamming (not32 (best_pattern r)) bits)
     \/
     (inverted r = true /\
      best_diff r = hamming (not32 (best_pattern r)) bits /\
      best_diff r < hamming (best_pattern r) bits)).
Proof.
  induction es as [|e es IH]; intros st; cbn zeta.
  - left. reflexivity.
  - unfold scan_entries. cbn [fold_left].
    fold (scan_entries bits es (compare_entry (fst e) (snd e) bits st)).
    destruct (compare_entry_cases (fst e) (snd e) bits st)
      as (Hle & Ha & Hb & _).
    destruct (compare_entry_polarity (fst e) (snd e) bits st) as [E0|Hwin].
    + (* the entry did not win *)
      rewrite E0 in *.
      destruct (IH st) as [E|(l1 & l2 & Hes & Hlt & Hbefore & Hpol)].
      * left. exact E.
      * right. exists (e :: l1), l2. cbn zeta in *.
        split; [cbn [app]; f_equal; exact Hes|]. split; [exact Hlt|].
        split; [|exact Hpol].
        intros e' [<-|He']; [lia | apply Hbefore, He'].
    + destruct (IH (compare_entry (fst e) (snd e) bits st))
        as [E|(l1 & l2 & Hes & Hlt & Hbefore & Hpol)]; cbn zeta in *.
      * (* the entry won and nothing later beat it *)
        right. rewrite E. destruct Hwin as (Hp & Hc & Hlt & Hpol).
        exists [], es. rewrite Hp, Hc.
        split; [destruct e; reflexivity|]. split; [exact Hlt|].
        split; [intros e' []|exact Hpol].
      * right. exists (e :: l1), l2.
        split; [cbn [app]; f_equal; exact Hes|]. split; [lia|].
        split; [|exact Hpol].
        intros e' [<-|He']; [lia | apply Hbefore, He'].
Qed.

(** X7: ties are broken by first-seen order.  Unless the search keeps its
    initial values, the entry it records splits the candidate entries in
    dictionary order so that every earlier entry is strictly farther from
    the mask, in both polarities, than the recorded difference, and no
    later entry is closer; and the complement of the recorded entry wins
    only when it is strictly closer than the entry itself. *)
Theorem first_seen_wins bits flags :
  exists g, findGlyph bits flags = Some g /\
    (g = initial_best \/
     exists l1 l2,
       candidates flags = l1 ++ (best_pattern g, codepoint g) :: l2 /\
       (forall e, In e l1 ->
          best_diff g < hamming (fst e) bits /\
          best_diff g < hamming (not32 (fst e)) bits) /\
       (forall e, In e l2 ->
          best_diff g <= hamming (fst e) bits /\
          best_diff g <= hamming (not32 (fst e)) bits) /\
       ((inverted g = false /\ best_diff g = hamming (best_pattern g) bits /\
         best_diff g <= hamming (not32 (best_pattern g)) bits)
        \/
        (inverted g = true /\
         best_diff g = hamming (not32 (best_pattern g)) bits /\
         best_diff g < hamming (best_pattern g) bits))).
Proof.
  exists (scan_entries bits (candidates flags) initial_best).
  split; [apply findGlyph_scan|].
  destruct (scan_entries_cases bits (candidates flags) initial_best)
    as (_ & Hall & _).
  destruct (scan_entries_first bits (candidates flags) initial_best)
    as [E|(l1 & l2 & Hes & _ & Hbefore & Hpol)]; cbn zeta in *.
  - left. exact E.
  - right. exists l1, l2. split; [exact Hes|]. split; [exact Hbefore|].
    split; [|exact Hpol].
    intros e He. apply Hall. rewrite Hes. apply in_or_app. right. right.
    exact He.
Qed.

(** The mask [0x00066000] is the pattern of three entries; the first of
    them in the table, [0x2579], is the one returned. *)
Example first_of_equal_patterns :
  map snd (filter (fun e => fst e =? 0x00066000) (candidates 0))
  = [0x2579; 0x257b; 0x25aa] /\
  option_map codepoint (findGlyph 0x00066000 0) = Some 0x2579.
Proof. vm_compute. split; reflexivity. Qed.

(** ** More on the block analysis *)

Lemma land_255 x : Z.land x 255 = x mod 256.
Proof. change 255 with (Z.ones 8). rewrite Z.land_ones by lia. reflexivity. Qed.

Lemma unpack_range color i : 0 <= unpack color i <= 255.
Proof.
  unfold unpack. rewrite land_255.
  pose proof (Z.mod_pos_bound (Z.shiftr color (16 - 8 * i)) 256). lia.
Qed.

Lemma unpack_rgb_byte_range color : byte_range (unpack_rgb color).
Proof.
  unfold byte_range, unpack_rgb. cbn [red green blue].
  repeat split; apply unpack_range.
Qed.

Lemma unpack_key p : byte_range p -> unpack_rgb (color_key p) = p.
Proof.
  intros Hp. rewrite (color_key_value p Hp).
  destruct Hp as (Hr & Hg & Hb). destruct p as [r g b]. cbn [red green blue] in *.
  unfold unpack_rgb, unpack. rewrite !land_255.
  change (16 - 8 * 0) with 16. change (16 - 8 * 1) with 8.
  change (16 - 8 * 2) with 0.
  rewrite !Z.shiftr_div_pow2 by lia.
  change (2 ^ 16) with 65536. change (2 ^ 8) with 256. change (2 ^ 0) with 1.
  f_equal; Z.div_mod_to_equations; lia.
Qed.

(** X8: packing a pixel into the [long] key of the colour count and
    unpacking the key with the shifts and masks of the direct branch gives
    the pixel back. *)
Theorem unpack_color_key p :
  byte_range p -> unpack_rgb (color_key p) = p.
Proof. exact (unpack_key p). Qed.

Lemma unpack_color_key_witness :
  byte_range (mkRGB 10 20 30) /\
  unpack_rgb (color_key (mkRGB 10 20 30)) = mkRGB 10 20 30.
Proof.
  assert (H : byte_range (mkRGB 10 20 30)) by (unfold byte_range; cbn; lia).
  split; [exact H|]. apply (unpack_color_key (mkRGB 10 20 30) H).
Defined.










Lemma rgb_sum_bounds l :
  Forall byte_range l ->
  0 <= red (rgb_sum l) <= 255 * Z.of_nat (length l) /\
  0 <= green (rgb_sum l) <= 255 * Z.of_nat (length l) /\
  0 <= blue (rgb_sum l) <= 255 * Z.of_nat (length l).
Proof.
  induction 1 as [|p l Hp _ IH]; [cbn; lia|].
  destruct Hp as (Hr & Hg & Hb).
  cbn [rgb_sum fold_right length]. fold (rgb_sum l).
  unfold rgb_map2. cbn [red green blue]. lia.
Qed.

Lemma quot_average s n : 0 <= s <= 255 * n -> 0 < n -> 0 <= Z.quot s n <= 255.
Proof.
  intros Hs Hn. rewrite Z.quot_div_nonneg by lia. split.
  - apply Z.div_pos; lia.
  - apply Z.div_le_upper_bound; lia.
Qed.

Lemma bucket_color_byte_range members :
  Forall byte_range members -> byte_range (bucket_color members).
Proof.
  intros H. destruct members as [|p l]; [unfold byte_range; cbn; lia|].
  destruct (rgb_sum_bounds _ H) as (Hr & Hg & Hb).
  unfold bucket_color, byte_range. cbn [red green blue].
  assert (Hn : 0 < Z.of_nat (length (p :: l))) by (cbn [length]; lia).
  repeat split; apply quot_average; assumption || lia.
Qed.

Lemma bucket_from_Forall (P : RGB -> Prop) fg pattern px : forall i,
  Forall P px -> Forall P (bucket_from i fg pattern px).
Proof.
  induction px as [|p px IH]; intros i H; cbn [bucket_from]; [constructor|].
  inversion H; subst.
  destruct (Bool.eqb (Z.testbit pattern (31 - i)) fg); [constructor|]; auto.
Qed.

Lemma createCharBlock_byte_range px cp pattern :
  Z.of_nat (length px) <= 32 -> Forall byte_range px ->
  byte_range (fgColor (createCharBlock px cp pattern)) /\
  byte_range (bgColor (createCharBlock px cp pattern)).
Proof.
  intros Hlen Hb. rewrite createCharBlock_buckets by exact Hlen.
  cbn [fgColor bgColor].
  split; apply bucket_color_byte_range, bucket_from_Forall, Hb.
Qed.

Lemma clamp_byte_id v : 0 <= v <= 255 -> clamp_byte v = v.
Proof.
  intros H. unfold clamp_byte. destruct (Z.ltb_spec v 0); [lia|].
  destruct (Z.gtb_spec v 255); [lia | reflexivity].
Qed.

Lemma cellCharData_byte_range image x y flags :
  exists r, cellCharData image x y flags = Some r /\
            byte_range (fgColor r) /\ byte_range (bgColor r).
Proof.
  assert (Hlen : Z.of_nat (length (block_pixels image x y)) <= 32)
    by (rewrite block_pixels_length; lia).
  pose proof (block_pixels_byte_range image x y) as Hb.
  unfold cellCharData. destruct (flag_set flags FLAG_NOOPT).
  - eexists. split; [reflexivity|].
    apply createCharBlock_byte_range; assumption.
  - unfold findCharData, findCharBlock.
    destruct (findGlyph_cases (block_bits (block_pixels image x y)) flags)
      as (g & Hg & _).
    rewrite Hg. eexists. split; [reflexivity|].
    destruct (block_direct (block_pixels image x y)).
    + unfold direct_result. cbn [fgColor bgColor].
      split; apply unpack_rgb_byte_range.
    + apply createCharBlock_byte_range; assumption.
Qed.

(** X11: whatever the block and the flags, every channel of the two
    colours of the cell lies in [0, 255], in direct mode, in split mode and
    with the optimisation off; so [clamp_byte] leaves them as they are
    when [emitTermColor] gets them. *)
Theorem cell_colors_are_bytes image x y flags :
  exists r, cellCharData image x y flags = Some r /\
    byte_range (fgColor r) /\ byte_range (bgColor r) /\
    (forall i, clamp_byte (chan (fgColor r) i) = chan (fgColor r) i) /\
    (forall i, clamp_byte (chan (bgColor r) i) = chan (bgColor r) i).
Proof.
  destruct (cellCharData_byte_range image x y flags) as (r & Hr & Hf & Hb).
  exists r. repeat split; try assumption; try apply Hf; try apply Hb;
    intros i; apply clamp_byte_id, chan_byte_range; assumption.
Qed.

Lemma half_block_buckets (px : list RGB) :
  length px = 32%nat ->
  bucket true 0x0000ffff px = skipn 16 px /\
  bucket false 0x0000ffff px = firstn 16 px.
Proof.
  intros H.
  do 32 (destruct px as [|? px]; [discriminate H|]).
  destruct px; [|discriminate H].
  split; reflexivity.
Qed.

(** X12: with the optimisation off, every cell is the lower half block
    [0x2584]; its foreground is the truncated average of the last 16
    pixels of the block in scan order, the four lower rows, and its
    background that of the first 16, the four upper rows. *)
Theorem noopt_cell_halves image x y flags :
  flag_set flags FLAG_NOOPT = true ->
  cellCharData image x y flags =
  Some {| fgColor := bucket_color (skipn 16 (block_pixels image x y));
          bgColor := bucket_color (firstn 16 (block_pixels image x y));
          codePoint := 0x2584 |}.
Proof.
  intros H. unfold cellCharData, createCharData. rewrite H.
  rewrite createCharBlock_buckets by (rewrite block_pixels_length; lia).
  destruct (half_block_buckets _ (block_pixels_length image x y)) as [E1 E2].
  rewrite E1, E2. reflexivity.
Qed.

Lemma noopt_cell_halves_witness :
  flag_set FLAG_NOOPT FLAG_NOOPT = true /\
  cellCharData gradient_image 0 0 FLAG_NOOPT =
  Some {| fgColor := bucket_color (skipn 16 (block_pixels gradient_image 0 0));
          bgColor := bucket_color (firstn 16 (block_pixels gradient_image 0 0));
          codePoint := 0x2584 |}.
Proof.
  assert (H : flag_set FLAG_NOOPT FLAG_NOOPT = true) by reflexivity.
  split; [exact H|]. apply (noopt_cell_halves gradient_image 0 0 FLAG_NOOPT H).
Defined.

(** ** More on the colour quantizer *)

Lemma best_index_from_nearest value steps : forall pre i result d,
  i = Z.of_nat (length pre) -> 0 <= result < i ->
  d = Z.abs (nth (Z.to_nat result) pre 0 - value) ->
  (forall j, (j < length pre)%nat -> d <= Z.abs (nth j pre 0 - value)) ->
  (forall j, Z.of_nat j < result -> d < Z.abs (nth j pre 0 - value)) ->
  let r := best_index_from value steps i result d in
  0 <= r < Z.of_nat (length (pre ++ steps)) /\
  (forall j, (j < length (pre ++ steps))%nat ->
     Z.abs (nth (Z.to_nat r) (pre ++ steps) 0 - value)
     <= Z.abs (nth j (pre ++ steps) 0 - value)) /\
  (forall j, Z.of_nat j < r ->
     Z.abs (nth (Z.to_nat r) (pre ++ steps) 0 - value)
     < Z.abs (nth j (pre ++ steps) 0 - value)).
Proof.
  induction steps as [|s rest IH]; intros pre i result d Hi Hres Hd Hmin Hfirst;
    cbn zeta; cbn [best_index_from].
  - rewrite app_nil_r. rewrite <- Hd. repeat split; try lia; assumption.
  - replace (pre ++ s :: rest) with ((pre ++ [s]) ++ rest)
      by (rewrite <- app_assoc; reflexivity).
    assert (Hlen : length (pre ++ [s]) = S (length pre))
      by (rewrite length_app; cbn [length]; lia).
    destruct (Z.ltb_spec (Z.abs (s - value)) d) as [Hlt|Hge].
    + apply IH.
      * rewrite Hlen. lia.
      * lia.
      * rewrite Hi, Nat2Z.id, nth_middle. reflexivity.
      * intros j Hj. rewrite Hlen in Hj.
        destruct (Nat.eq_dec j (length pre)) as [->|Hne].
        -- rewrite nth_middle. lia.
        -- rewrite app_nth1 by lia. specialize (Hmin j ltac:(lia)). lia.
      * intros j Hj. rewrite app_nth1 by lia.
        specialize (Hmin j ltac:(lia)). lia.
    + apply IH.
      * rewrite Hlen. lia.
      * lia.
      * rewrite app_nth1 by lia. exact Hd.
      * intros j Hj. rewrite Hlen in Hj.
        destruct (Nat.eq_dec j (length pre)) as [->|Hne].
        -- rewrite nth_middle. lia.
        -- rewrite app_nth1 by lia. apply Hmin. lia.
      * intros j Hj. rewrite app_nth1 by lia. apply Hfirst, Hj.
Qed.

Lemma best_index_spec value STEPS :
  STEPS <> [] ->
  let r := best_index value STEPS (Z.of_nat (length STEPS)) in
  0 <= r < Z.of_nat (length STEPS) /\
  (forall j, (j < length STEPS)%nat ->
     Z.abs (nth (Z.to_nat r) STEPS 0 - value)
     <= Z.abs (nth j STEPS 0 - value)) /\
  (forall j, Z.of_nat j < r ->
     Z.abs (nth (Z.to_nat r) STEPS 0 - value)
     < Z.abs (nth j STEPS 0 - value)).
Proof.
  intros Hne. unfold best_index. rewrite Nat2Z.id, firstn_all.
  destruct STEPS as [|s0 rest]; [contradiction Hne; reflexivity|].
  apply (best_index_from_nearest value rest [s0] 1 0 (Z.abs (s0 - value))).
  - reflexivity.
  - lia.
  - reflexivity.
  - intros j Hj. cbn [length] in Hj. assert (j = 0%nat) as -> by lia.
    cbn [nth]. lia.
  - intros j Hj. lia.
Qed.

(** X13: [best_index] returns an index of the table whose step is nearest
    to the value, and the lowest such index: no step is nearer, and every
    step at a lower index is strictly farther. *)
Theorem best_index_nearest value STEPS :
  STEPS <> [] ->
  0 <= best_index value STEPS (Z.of_nat (length STEPS))
    < Z.of_nat (length STEPS) /\
  (forall j, (j < length STEPS)%nat ->
     Z.abs (nth (Z.to_nat (best_index value STEPS (Z.of_nat (length STEPS))))
                STEPS 0 - value)
     <= Z.abs (nth j STEPS 0 - value)) /\
  (forall j, Z.of_nat j < best_index value STEPS (Z.of_nat (length STEPS)) ->
     Z.abs (nth (Z.to_nat (best_index value STEPS (Z.of_nat (length STEPS))))
                STEPS 0 - value)
     < Z.abs (nth j STEPS 0 - value)).
Proof. exact (best_index_spec value STEPS). Qed.

Lemma best_index_nearest_witness :
  COLOR_STEPS <> [] /\
  0 <= best_index 115 COLOR_STEPS (Z.of_nat (length COLOR_STEPS))
    < Z.of_nat (length COLOR_STEPS) /\
  (forall j, (j < length COLOR_STEPS)%nat ->
     Z.abs (nth (Z.to_nat (best_index 115 COLOR_STEPS
                             (Z.of_nat (length COLOR_STEPS))))
                COLOR_STEPS 0 - 115)
     <= Z.abs (nth j COLOR_STEPS 0 - 115)) /\
  (forall j, Z.of_nat j < best_index 115 COLOR_STEPS
                            (Z.of_nat (length COLOR_STEPS)) ->
     Z.abs (nth (Z.to_nat (best_index 115 COLOR_STEPS
                             (Z.of_nat (length COLOR_STEPS))))
                COLOR_STEPS 0 - 115)
     < Z.abs (nth j COLOR_STEPS 0 - 115)).
Proof.
  assert (H : COLOR_STEPS <> []) by discriminate.
  split; [exact H|]. apply (best_index_nearest 115 COLOR_STEPS H).
Defined.

(** The value 115 is as far from the step [0x5f] as from the step [0x87];
    the lower index is returned. *)
Example best_index_tie :
  Z.abs (0x5f - 115) = Z.abs (0x87 - 115) /\
  best_index 115 COLOR_STEPS COLOR_STEP_COUNT = 1.
Proof. split; reflexivity. Qed.

(** X14: in a table without repeated steps, the index returned for a
    value that is itself a step of the table is the index of that step. *)
Theorem best_index_of_step STEPS i :
  NoDup STEPS -> (i < length STEPS)%nat ->
  best_index (nth i STEPS 0) STEPS (Z.of_nat (length STEPS)) = Z.of_nat i.
Proof.
  intros Hnd Hi.
  assert (Hne : STEPS <> []) by (intros E; rewrite E in Hi; cbn in Hi; lia).
  destruct (best_index_spec (nth i STEPS 0) STEPS Hne) as (Hr & Hmin & _).
  cbn zeta in *.
  specialize (Hmin i Hi). rewrite Z.sub_diag in Hmin. cbn [Z.abs] in Hmin.
  assert (E : nth (Z.to_nat (best_index (nth i STEPS 0) STEPS
                                (Z.of_nat (length STEPS)))) STEPS 0
              = nth i STEPS 0) by lia.
  apply (proj1 (NoDup_nth STEPS 0) Hnd) in E; lia.
Qed.

Lemma best_index_of_step_witness :
  NoDup GRAYSCALE_STEPS /\ (13 < length GRAYSCALE_STEPS)%nat /\
  best_index (nth 13 GRAYSCALE_STEPS 0) GRAYSCALE_STEPS
             (Z.of_nat (length GRAYSCALE_STEPS)) = 13.
Proof.
  assert (Hnd : NoDup GRAYSCALE_STEPS).
  { unfold GRAYSCALE_STEPS.
    repeat (constructor; [cbn [In]; intros H;
                          repeat (destruct H as [H|H]; [discriminate H|]);
                          exact H|]).
    constructor. }
  assert (Hi : (13 < length GRAYSCALE_STEPS)%nat) by (cbn; lia).
  split; [exact Hnd|]. split; [exact Hi|].
  apply (best_index_of_step GRAYSCALE_STEPS 13 Hnd Hi).
Defined.

(** ** The loops of [emitImage] and [printImage] *)

Lemma loop_values_spec step limit : 0 < step -> forall fuel v,
  limit - v < Z.of_nat fuel * step ->
  loop_values fuel v limit step =
  map (fun k => v + step * Z.of_nat k)
      (seq 0 (Z.to_nat ((limit - v + step) / step))).
Proof.
  intros Hstep. induction fuel as [|fuel IH]; intros v Hfuel.
  - cbn [loop_values].
    assert (H : (limit - v + step) / step <= 0).
    { apply Z.lt_succ_r. apply Z.div_lt_upper_bound; lia. }
    replace (Z.to_nat ((limit - v + step) / step)) with 0%nat by lia.
    reflexivity.
  - cbn [loop_values]. destruct (Z.leb_spec v limit) as [Hle|Hgt].
    + rewrite IH by lia.
      replace ((limit - v + step) / step)
        with ((limit - (v + step) + step) / step + 1)
        by (rewrite <- Z.div_add by lia; f_equal; lia).
      assert (Hq : 0 <= (limit - (v + step) + step) / step)
        by (apply Z.div_pos; lia).
      rewrite Z2Nat.inj_add by lia.
      change (Z.to_nat 1) with 1%nat. rewrite Nat.add_1_r.
      cbn [seq map]. rewrite <- seq_shift, map_map.
      f_equal; [lia|]. apply map_ext. intros k. lia.
    + assert (H : (limit - v + step) / step <= 0).
      { apply Z.lt_succ_r. apply Z.div_lt_upper_bound; lia. }
      replace (Z.to_nat ((limit - v + step) / step)) with 0%nat by lia.
      reflexivity.
Qed.

Lemma block_rows_spec image :
  block_rows image =
  map (fun k => 8 * Z.of_nat k) (seq 0 (Z.to_nat (img_height image / 8))).
Proof.
  unfold block_rows. rewrite loop_values_spec by lia.
  replace (img_height image - 8 - 0 + 8) with (img_height image) by lia.
  apply map_ext. intros k. lia.
Qed.

Lemma block_columns_spec image :
  block_columns image =
  map (fun k => 4 * Z.of_nat k) (seq 0 (Z.to_nat (img_width image / 4))).
Proof.
  unfold block_columns. rewrite loop_values_spec by lia.
  replace (img_width image - 4 - 0 + 4) with (img_width image) by lia.
  apply map_ext. intros k. lia.
Qed.

Lemma length_flat_map_const {A B : Type} (f : A -> list B) n l :
  (forall a, length (f a) = n) -> length (flat_map f l) = (length l * n)%nat.
Proof.
  intros H. induction l as [|a l IH]; [reflexivity|].
  cbn [flat_map length]. rewrite length_app, H, IH. lia.
Qed.

(** X15: the loops visit the blocks at [(4 i, 8 j)] for [i] below
    [width / 4] and [j] below [height / 8], rows first: exactly the
    blocks aligned to (4, 8) that lie inside the image.  A strip narrower
    than 4 pixels on the right or lower than 8 pixels at the bottom is
    left out, and an image narrower than 4 or lower than 8 pixels has no
    block. *)
Theorem block_grid_in_bounds image :
  block_rows image =
  map (fun k => 8 * Z.of_nat k) (seq 0 (Z.to_nat (img_height image / 8))) /\
  block_columns image =
  map (fun k => 4 * Z.of_nat k) (seq 0 (Z.to_nat (img_width image / 4))) /\
  length (block_grid image) =
  (Z.to_nat (img_height image / 8) * Z.to_nat (img_width image / 4))%nat /\
  forall x y, In (x, y) (block_grid image) <->
    0 <= x /\ x + 4 <= img_width image /\ x mod 4 = 0 /\
    0 <= y /\ y + 8 <= img_height image /\ y mod 8 = 0.
Proof.
  split; [apply block_rows_spec|]. split; [apply block_columns_spec|]. split.
  - unfold block_grid.
    rewrite (length_flat_map_const _ (Z.to_nat (img_width image / 4))).
    + rewrite block_rows_spec, length_map, length_seq. reflexivity.
    + intros y. rewrite length_map, block_columns_spec, length_map, length_seq.
      reflexivity.
  - intros x y. split.
    + intros H. unfold block_grid in H. apply in_flat_map in H.
      destruct H as (y' & Hy & Hx). apply in_map_iff in Hx.
      destruct Hx as (x' & E & Hx). inversion E; subst x' y'.
      rewrite block_rows_spec in Hy. rewrite block_columns_spec in Hx.
      apply in_map_iff in Hy, Hx.
      destruct Hy as (j & <- & Hj). destruct Hx as (i & <- & Hi).
      apply in_seq in Hj, Hi.
      assert (Hw : Z.of_nat i < img_width image / 4) by lia.
      assert (Hh : Z.of_nat j < img_height image / 8) by lia.
      pose proof (Z.mul_div_le (img_width image) 4 ltac:(lia)).
      pose proof (Z.mul_div_le (img_height image) 8 ltac:(lia)).
      repeat split; try lia.
      * rewrite Z.mul_comm. apply Z.mod_mul. lia.
      * rewrite Z.mul_comm. apply Z.mod_mul. lia.
    + intros (Hx0 & Hxw & Hxm & Hy0 & Hyh & Hym).
      unfold block_grid. apply in_flat_map. exists y.
      rewrite block_rows_spec, block_columns_spec. split.
      * apply in_map_iff. exists (Z.to_nat (y / 8)).
        assert (0 <= y / 8) by (apply Z.div_pos; lia).
        assert (y / 8 < img_height image / 8).
        { apply Z.div_lt_upper_bound; [lia|].
          pose proof (Z.mul_succ_div_gt (img_height image) 8 ltac:(lia)).
          Z.div_mod_to_equations. lia. }
        split; [Z.div_mod_to_equations; lia | apply in_seq; lia].
      * apply in_map_iff. exists (4 * Z.of_nat (Z.to_nat (x / 4))).
        assert (0 <= x / 4) by (apply Z.div_pos; lia).
        assert (x / 4 < img_width image / 4).
        { apply Z.div_lt_upper_bound; [lia|].
          Z.div_mod_to_equations. lia. }
        split; [f_equal; Z.div_mod_to_equations; lia|].
        apply in_map_iff. exists (Z.to_nat (x / 4)).
        split; [reflexivity | apply in_seq; lia].
Qed.

Example sample_image_grid :
  block_grid sample_image = [(0, 0); (4, 0); (0, 8); (4, 8)].
Proof. reflexivity. Qed.

(** ** The output of [emitImage] and [printImage] *)

Lemma replay_app l1 : forall l2 bg fg,
  replay (l1 ++ l2) bg fg =
  replay l1 bg fg
  ++ replay l2 (fst (term_state l1 bg fg)) (snd (term_state l1 bg fg)).
Proof.
  induction l1 as [|o l1 IH]; intros l2 bg fg; [reflexivity|].
  destruct o as [c|w|]; cbn [app replay term_state].
  - destruct (selector c =? 48); apply IH.
  - rewrite IH. reflexivity.
  - apply IH.
Qed.

Lemma term_state_app l1 : forall l2 bg fg,
  term_state (l1 ++ l2) bg fg =
  term_state l2 (fst (term_state l1 bg fg)) (snd (term_state l1 bg fg)).
Proof.
  induction l1 as [|o l1 IH]; intros l2 bg fg; [reflexivity|].
  destruct o as [c|w|]; cbn [app term_state].
  - destruct (selector c =? 48); apply IH.
  - apply IH.
  - apply IH.
Qed.

Lemma map_flat_map {A B C : Type} (f : B -> C) (g : A -> list B) l :
  map f (flat_map g l) = flat_map (fun a => map f (g a)) l.
Proof.
  induction l as [|a l IH]; [reflexivity|].
  cbn [flat_map]. rewrite map_app, IH. reflexivity.
Qed.

Lemma flag_set_lor_BG flags : flag_set (Z.lor flags FLAG_BG) FLAG_BG = true.
Proof.
  unfold flag_set. apply negb_true_iff, Z.eqb_neq. intros H.
  apply (f_equal (fun z => Z.testbit z 1)) in H.
  rewrite Z.land_spec, Z.lor_spec, Z.bits_0 in H.
  change (Z.testbit FLAG_BG 1) with true in H.
  rewrite orb_true_r in H. discriminate H.
Qed.

Lemma flag_set_lor_FG flags :
  flag_set (Z.lor flags FLAG_FG) FLAG_BG = flag_set flags FLAG_BG.
Proof.
  unfold flag_set. rewrite Z.land_lor_distr_l.
  change (Z.land FLAG_FG FLAG_BG) with 0. rewrite Z.lor_0_r. reflexivity.
Qed.

Lemma selector_termColor luma cube_closer flags r g b :
  selector (termColor luma cube_closer flags r g b) =
  if flag_set flags FLAG_BG then 48 else 38.
Proof.
  unfold termColor. destruct (flag_set flags FLAG_MODE_256); reflexivity.
Qed.

Section RendererFacts.

Variable luma : Z -> Z -> Z -> Z.
Variable cube_closer : Z -> Z -> Z -> Z -> Z -> Z -> Z -> bool.
Variable glyph : Z -> Written.
Variable image : CImg.
Variable flags : Z.

Let esc_bg (c : CharData) : TermColor :=
  color_escape luma cube_closer (Z.lor flags FLAG_BG) (bgColor c).
Let esc_fg (c : CharData) : TermColor :=
  color_escape luma cube_closer (Z.lor flags FLAG_FG) (fgColor c).
Let shown (xy : Z * Z) : Shown :=
  mkShown (Some (esc_bg (cell_at image flags xy)))
          (Some (esc_fg (cell_at image flags xy)))
          (glyph (codePoint (cell_at image flags xy))).
Let glyph_at (xy : Z * Z) : Output :=
  OutGlyph (glyph (codePoint (cell_at image flags xy))).

Lemma cell_at_Some x y :
  cellCharData (img_data image) x y flags = Some (cell_at image flags (x, y)).
Proof.
  unfold cell_at. cbn [fst snd].
  destruct (cellCharData_byte_range (img_data image) x y flags) as (r & Hr & _).
  rewrite Hr. reflexivity.
Qed.

Lemma cell_output_filter x c last :
  filter is_glyph (cell_output luma cube_closer glyph flags x c last)
  = [OutGlyph (glyph (codePoint c))] /\
  filter is_reset (cell_output luma cube_closer glyph flags x c last) = [].
Proof.
  unfold cell_output.
  destruct ((x =? 0) || negb (RGB_eqb (bgColor c) (bgColor last)));
    destruct ((x =? 0) || negb (RGB_eqb (fgColor c) (fgColor last)));
    split; reflexivity.
Qed.

Lemma cell_output_replay x c last bg fg :
  flag_set flags FLAG_BG = false ->
  x = 0 \/ (bg = Some (esc_bg last) /\ fg = Some (esc_fg last)) ->
  replay (cell_output luma cube_closer glyph flags x c last) bg fg
  = [mkShown (Some (esc_bg c)) (Some (esc_fg c)) (glyph (codePoint c))] /\
  term_state (cell_output luma cube_closer glyph flags x c last) bg fg
  = (Some (esc_bg c), Some (esc_fg c)).
Proof.
  intros Hflag Hstate.
  assert (Sb : (selector (esc_bg c) =? 48) = true).
  { unfold esc_bg, color_escape.
    rewrite selector_termColor, flag_set_lor_BG. reflexivity. }
  assert (Sf : (selector (esc_fg c) =? 48) = false).
  { unfold esc_fg, color_escape.
    rewrite selector_termColor, flag_set_lor_FG, Hflag. reflexivity. }
  assert (Eb : ((x =? 0) || negb (RGB_eqb (bgColor c) (bgColor last))) = false ->
               bg = Some (esc_bg c)).
  { intros E. apply orb_false_iff in E. destruct E as [Ex Ec].
    apply Z.eqb_neq in Ex. apply negb_false_iff, RGB_eqb_eq in Ec.
    destruct Hstate as [?|[Hb _]]; [contradiction|].
    rewrite Hb. unfold esc_bg. rewrite Ec. reflexivity. }
  assert (Ef : ((x =? 0) || negb (RGB_eqb (fgColor c) (fgColor last))) = false ->
               fg = Some (esc_fg c)).
  { intros E. apply orb_false_iff in E. destruct E as [Ex Ec].
    apply Z.eqb_neq in Ex. apply negb_false_iff, RGB_eqb_eq in Ec.
    destruct Hstate as [?|[_ Hf]]; [contradiction|].
    rewrite Hf. unfold esc_fg. rewrite Ec. reflexivity. }
  unfold cell_output. fold (esc_bg c). fold (esc_fg c).
  destruct ((x =? 0) || negb (RGB_eqb (bgColor c) (bgColor last)));
    destruct ((x =? 0) || negb (RGB_eqb (fgColor c) (fgColor last)));
    cbn [app replay term_state]; rewrite ?Sb, ?Sf;
    rewrite ?(Eb eq_refl), ?(Ef eq_refl); split; reflexivity.
Qed.

Lemma cells_fold y xs : forall out last,
  exists out' last',
    fold_left (cell_step luma cube_closer glyph image flags y) xs
              (Some (out, last)) = Some (out ++ out', last') /\
    filter is_glyph out' = map (fun x => glyph_at (x, y)) xs /\
    filter is_reset out' = [] /\
    (xs = [] -> out' = []) /\
    (flag_set flags FLAG_BG = false -> forall bg fg,
       match xs with
       | [] => True
       | x :: _ => x = 0 \/ (bg = Some (esc_bg last) /\ fg = Some (esc_fg last))
       end ->
       replay out' bg fg = map (fun x => shown (x, y)) xs).
Proof.
  induction xs as [|x xs IH]; intros out last.
  - exists [], last. cbn [fold_left map]. rewrite app_nil_r.
    repeat split; reflexivity.
  - cbn [fold_left]. unfold cell_step at 2. rewrite cell_at_Some.
    set (c := cell_at image flags (x, y)).
    destruct (IH (out ++ cell_output luma cube_closer glyph flags x c last) c)
      as (out' & last' & Hfold & Hg & Hr & _ & Hrep).
    exists (cell_output luma cube_closer glyph flags x c last ++ out'), last'.
    destruct (cell_output_filter x c last) as [Fg Fr].
    rewrite app_assoc. split; [exact Hfold|].
    rewrite !filter_app, Fg, Fr, Hg, Hr. cbn [map app].
    split; [reflexivity|]. split; [reflexivity|]. split; [discriminate|].
    intros Hflag bg fg Hstate.
    destruct (cell_output_replay x c last bg fg Hflag Hstate) as [Rc Tc].
    rewrite replay_app, Rc, Tc. cbn [fst snd app]. f_equal.
    apply (Hrep Hflag). destruct xs as [|x2 xs']; [exact I|].
    right. split; reflexivity.
Qed.

Lemma rows_fold ys : forall out last,
  exists out' last',
    fold_left (row_step luma cube_closer glyph image flags) ys
              (Some (out, last)) = Some (out ++ out', last') /\
    filter is_glyph out' =
    flat_map (fun y => map (fun x => glyph_at (x, y)) (block_columns image)) ys
    /\
    filter is_reset out' = repeat OutReset (length ys) /\
    (block_columns image = [] -> out' = repeat OutReset (length ys)) /\
    (flag_set flags FLAG_BG = false ->
     match block_columns image with [] => True | x :: _ => x = 0 end ->
     forall bg fg,
       replay out' bg fg =
       flat_map (fun y => map (fun x => shown (x, y)) (block_columns image)) ys).
Proof.
  induction ys as [|y ys IH]; intros out last.
  - exists [], last. cbn [fold_left flat_map length repeat].
    rewrite app_nil_r. repeat split; reflexivity.
  - cbn [fold_left]. unfold row_step at 2.
    destruct (cells_fold y (block_columns image) out last)
      as (row & last1 & Hfold & Hg & Hr & Hempty & Hrep).
    rewrite Hfold.
    destruct (IH ((out ++ row) ++ [OutReset]) last1)
      as (out' & last' & Hfold' & Hg' & Hr' & Hempty' & Hrep').
    exists ((row ++ [OutReset]) ++ out'), last'.
    split; [rewrite Hfold'; f_equal; f_equal; rewrite <- !app_assoc;
            reflexivity|].
    rewrite !filter_app, Hg, Hr, Hg', Hr'.
    cbn [filter is_glyph is_reset flat_map length repeat app].
    rewrite app_nil_r. split; [reflexivity|]. split; [reflexivity|]. split.
    + intros E. rewrite (Hempty E), (Hempty' E). reflexivity.
    + intros Hflag Hcols bg fg.
      rewrite replay_app, replay_app. cbn [replay app].
      rewrite app_nil_r. rewrite term_state_app. cbn [term_state fst snd].
      rewrite (Hrep' Hflag Hcols). f_equal.
      apply (Hrep Hflag).
      destruct (block_columns image); [exact I | left; exact Hcols].
Qed.

Lemma block_columns_start :
  match block_columns image with [] => True | x :: _ => x = 0 end.
Proof.
  rewrite block_columns_spec.
  destruct (Z.to_nat (img_width image / 4)); [exact I | reflexivity].
Qed.

Lemma render_image_spec :
  exists out,
    render_image luma cube_closer glyph image flags = Some out /\
    filter is_glyph out = map glyph_at (block_grid image) /\
    filter is_reset out = repeat OutReset (length (block_rows image)) /\
    (block_columns image = [] ->
     out = repeat OutReset (length (block_rows image))) /\
    (flag_set flags FLAG_BG = false ->
     replay out None None = map shown (block_grid image)).
Proof.
  destruct (rows_fold (block_rows image) [] initial_CharData)
    as (out & last & Hfold & Hg & Hr & Hempty & Hrep).
  exists out. unfold render_image. rewrite Hfold. cbn [option_map fst app].
  unfold block_grid. rewrite !map_flat_map.
  split; [reflexivity|]. split.
  { rewrite Hg. apply flat_map_ext. intros y. rewrite map_map. reflexivity. }
  split; [exact Hr|]. split; [exact Hempty|].
  intros Hflag. rewrite (Hrep Hflag block_columns_start).
  apply flat_map_ext. intros y. rewrite map_map. reflexivity.
Qed.

End RendererFacts.

Lemma block_rows_length image :
  length (block_rows image) = Z.to_nat (img_height image / 8).
Proof. rewrite block_rows_spec, length_map, length_seq. reflexivity. Qed.

Lemma block_columns_empty image :
  img_width image < 4 -> block_columns image = [].
Proof.
  intros H. rewrite block_columns_spec.
  assert (img_width image / 4 <= 0).
  { apply Z.lt_succ_r. apply Z.div_lt_upper_bound; lia. }
  replace (Z.to_nat (img_width image / 4)) with 0%nat by lia. reflexivity.
Qed.

Lemma block_rows_empty image :
  img_height image < 8 -> block_rows image = [].
Proof.
  intros H. rewrite block_rows_spec.
  assert (img_height image / 8 <= 0).
  { apply Z.lt_succ_r. apply Z.div_lt_upper_bound; lia. }
  replace (Z.to_nat (img_height image / 8)) with 0%nat by lia. reflexivity.
Qed.

(** X16: [printImage] always completes.  Its output holds, in the order of
    the loops, one glyph for each block of the grid, written by
    [printCodepoint] from the code point of the block's cell, and one
    row-ending reset for each row of blocks.  An image lower than 8 pixels
    gives no output at all; an image narrower than 4 pixels gives only the
    resets, one for each 8 pixels of height. *)
Theorem printImage_shape luma cube_closer image flags :
  exists out,
    printImage luma cube_closer image flags = Some out /\
    filter is_glyph out =
    map (fun xy => OutGlyph (printCodepoint (codePoint (cell_at image flags xy))))
        (block_grid image) /\
    filter is_reset out = repeat OutReset (Z.to_nat (img_height image / 8)) /\
    (img_height image < 8 -> out = []) /\
    (img_width image < 4 ->
     out = repeat OutReset (Z.to_nat (img_height image / 8))).
Proof.
  destruct (render_image_spec luma cube_closer printCodepoint image flags)
    as (out & Hout & Hg & Hr & Hempty & _).
  exists out. rewrite block_rows_length in Hr, Hempty.
  split; [exact Hout|]. split; [exact Hg|]. split; [exact Hr|]. split.
  - intros H. unfold printImage, render_image in Hout.
    rewrite (block_rows_empty image H) in Hout. cbn in Hout.
    inversion Hout. reflexivity.
  - intros H. apply Hempty, block_columns_empty, H.
Qed.

(** X17: read by a terminal, the output of [printImage] shows the blocks
    of the grid in the order of the loops, each with the glyph of its cell
    on the background and foreground escapes of that cell's own colours:
    leaving out an escape for a colour equal to the previous cell's never
    lets a glyph appear in the colours of another cell, also across the
    reset that ends a row.  Every glyph is written as bytes, never as an
    error.  The flags must not contain [FLAG_BG], as is the case in
    [main]. *)
Theorem printImage_shows_cells luma cube_closer image flags :
  flag_set flags FLAG_BG = false ->
  exists out,
    printImage luma cube_closer image flags = Some out /\
    replay out None None =
    map (fun xy =>
           mkShown
             (Some (color_escape luma cube_closer (Z.lor flags FLAG_BG)
                                 (bgColor (cell_at image flags xy))))
             (Some (color_escape luma cube_closer (Z.lor flags FLAG_FG)
                                 (fgColor (cell_at image flags xy))))
             (printCodepoint (codePoint (cell_at image flags xy))))
        (block_grid image) /\
    Forall (fun s => exists bytes, shown_glyph s = Chars bytes)
           (replay out None None).
Proof.
  intros Hflag.
  destruct (render_image_spec luma cube_closer printCodepoint image flags)
    as (out & Hout & _ & _ & _ & Hrep).
  exists out. split; [exact Hout|]. specialize (Hrep Hflag).
  split; [exact Hrep|]. rewrite Hrep. apply Forall_forall.
  intros s Hs. apply in_map_iff in Hs. destruct Hs as ([x y] & <- & _).
  cbn [shown_glyph].
  assert (Hcp : 0 <= codePoint (cell_at image flags (x, y)) < 0x10ffff).
  { unfold cell_at, cellCharData. cbn [fst snd].
    destruct (flag_set flags FLAG_NOOPT); [cbn; lia|].
    unfold findCharData, findCharBlock.
    destruct (findGlyph_codepoint_range
                (block_bits (block_pixels (img_data image) x y)) flags)
      as (g & Hg & Hr & _).
    rewrite Hg.
    destruct (block_direct (block_pixels (img_data image) x y));
      unfold direct_result, createCharBlock; cbn [codePoint]; lia. }
  destruct (codepoint_branches_decode _
              (Error ("Error: Codepoint 0x"
                      ++ hex8 (codePoint (cell_at image flags (x, y)))
                      ++ " is out of range, skipping this pixel")%string) Hcp)
    as (bytes & Hb & _).
  exists bytes. exact Hb.
Qed.

Lemma printImage_shows_cells_witness :
  flag_set 0 FLAG_BG = false /\
  exists out,
    printImage (fun _ _ _ => 0) (fun _ _ _ _ _ _ _ => true) sample_image 0
    = Some out /\
    replay out None None =
    map (fun xy =>
           mkShown
             (Some (color_escape (fun _ _ _ => 0) (fun _ _ _ _ _ _ _ => true)
                                 (Z.lor 0 FLAG_BG)
                                 (bgColor (cell_at sample_image 0 xy))))
             (Some (color_escape (fun _ _ _ => 0) (fun _ _ _ _ _ _ _ => true)
                                 (Z.lor 0 FLAG_FG)
                                 (fgColor (cell_at sample_image 0 xy))))
             (printCodepoint (codePoint (cell_at sample_image 0 xy))))
        (block_grid sample_image) /\
    Forall (fun s => exists bytes, shown_glyph s = Chars bytes)
           (replay out None None).
Proof.
  assert (H : flag_set 0 FLAG_BG = false) by reflexivity.
  split; [exact H|].
  apply (printImage_shows_cells (fun _ _ _ => 0) (fun _ _ _ _ _ _ _ => true)
                                sample_image 0 H).
Defined.

(** In the second row of the sample image both blocks are black: the
    second cell is written without any escape and still shows on the
    colours of the first. *)
Example sample_image_output :
  printImage (fun _ _ _ => 0) (fun _ _ _ _ _ _ _ => true) sample_image 0 =
  Some [OutColor (TrueColor 48 60 61 62); OutColor (TrueColor 38 188 189 190);
        OutGlyph (Chars [226; 150; 132]);
        OutColor (TrueColor 48 76 77 78); OutColor (TrueColor 38 150 151 152);
        OutGlyph (Chars [226; 150; 133]); OutReset;
        OutColor (TrueColor 48 0 0 0); OutColor (TrueColor 38 0 0 0);
        OutGlyph (Chars [194; 160]); OutGlyph (Chars [194; 160]); OutReset].
Proof. vm_compute. reflexivity. Qed.

(** X18: [emitImage] always returns a string, built from the same escapes
    and resets, but its glyphs are one byte each: the code point of the
    cell converted to a [char].  As every cell's code point is 128 or more,
    that byte never reads back as the code point: the string does not hold
    the UTF-8 form that [printImage] writes. *)
Theorem emitImage_glyph_bytes luma cube_closer image flags :
  exists out,
    render_image luma cube_closer (fun cp => Chars [char_cast cp]) image flags
    = Some out /\
    emitImage luma cube_closer image flags =
    Some (String.concat EmptyString (map output_text out)) /\
    filter is_glyph out =
    map (fun xy =>
           OutGlyph (Chars [codePoint (cell_at image flags xy) mod 256]))
        (block_grid image) /\
    forall xy,
      128 <= codePoint (cell_at image flags xy) /\
      utf8_decode [codePoint (cell_at image flags xy) mod 256]
      <> Some (codePoint (cell_at image flags xy)).
Proof.
  destruct (render_image_spec luma cube_closer
              (fun cp => Chars [char_cast cp]) image flags)
    as (out & Hout & Hg & _).
  exists out. split; [exact Hout|].
  split; [unfold emitImage; rewrite Hout; reflexivity|].
  split; [exact Hg|].
  intros [x y].
  assert (Hcp : 128 <= codePoint (cell_at image flags (x, y))).
  { unfold cell_at, cellCharData. cbn [fst snd].
    destruct (flag_set flags FLAG_NOOPT); [cbn; lia|].
    unfold findCharData, findCharBlock.
    destruct (findGlyph_codepoint_range
                (block_bits (block_pixels (img_data image) x y)) flags)
      as (g & Hg' & Hr & _).
    rewrite Hg'.
    destruct (block_direct (block_pixels (img_data image) x y));
      unfold direct_result, createCharBlock; cbn [codePoint]; lia. }
  split; [exact Hcp|]. unfold utf8_decode.
  destruct ((0 <=? codePoint (cell_at image flags (x, y)) mod 256)
            && (codePoint (cell_at image flags (x, y)) mod 256 <? 0x80)) eqn:E;
    [|discriminate].
  apply andb_true_iff in E. destruct E as [_ E]. apply Z.ltb_lt in E.
  intros K. inversion K. lia.
Qed.

Example sample_image_emitted_glyphs :
  option_map (filter is_glyph)
    (render_image (fun _ _ _ => 0) (fun _ _ _ _ _ _ _ => true)
                  (fun cp => Chars [char_cast cp]) sample_image 0)
  = Some [OutGlyph (Chars [0x84]); OutGlyph (Chars [0x85]);
          OutGlyph (Chars [0xa0]); OutGlyph (Chars [0xa0])].
Proof. vm_compute. reflexivity. Qed.

(** ** The split-mode mask is never uniform *)

Lemma freq_all px a : (forall p, In p px -> p = a) ->
  freq px a = Z.of_nat (length px).
Proof.
  intros H. unfold freq. f_equal.
  induction px as [|p px IH]; [reflexivity|].
  cbn [filter]. rewrite <- (H p (or_introl eq_refl)).
  assert (E : RGB_eqb p p = true) by (apply RGB_eqb_eq; reflexivity).
  rewrite E. cbn [length]. f_equal.
  rewrite (H p (or_introl eq_refl)). apply IH.
  intros q Hq. apply H. right. exact Hq.
Qed.

Lemma split_mode_two_colors px :
  px <> [] -> Forall byte_range px -> length px = 32%nat ->
  block_direct px = false ->
  exists p q, In p px /\ In q px /\ p <> q.
Proof.
  intros Hne Hbytes Hlen Hsplit.
  destruct (block_top_two_spec px Hne Hbytes) as (a & Ha & _ & _ & Hcases).
  destruct Hcases as [(Hall & Hc & _)|(b & Hb & Hab & _)].
  - exfalso. rewrite (freq_all px a Hall), Hlen in Hc.
    unfold block_direct in Hsplit. rewrite Hc in Hsplit. discriminate Hsplit.
  - exists b, a. repeat split; assumption.
Qed.

Lemma differing_channel p q :
  p <> q -> exists i, In i channels /\ chan p i <> chan q i.
Proof.
  intros Hne.
  destruct (Z.eq_dec (red p) (red q)) as [Er|Er];
    [|exists 0; split; [cbn; tauto | exact Er]].
  destruct (Z.eq_dec (green p) (green q)) as [Eg|Eg];
    [|exists 1; split; [cbn; tauto | exact Eg]].
  destruct (Z.eq_dec (blue p) (blue q)) as [Eb|Eb];
    [|exists 2; split; [cbn; tauto | exact Eb]].
  destruct p, q; cbn in *; subst. contradiction Hne. reflexivity.
Qed.

Lemma split_bits_both px :
  px <> [] -> Forall byte_range px -> length px = 32%nat ->
  block_direct px = false ->
  exists k1 k0, (k1 < 32)%nat /\ (k0 < 32)%nat /\
    Z.testbit (split_bits px) (31 - Z.of_nat k1) = true /\
    Z.testbit (split_bits px) (31 - Z.of_nat k0) = false.
Proof.
  intros Hne Hbytes Hlen Hsplit.
  destruct (split_mode_two_colors px Hne Hbytes Hlen Hsplit)
    as (p & q & Hp & Hq & Hpq).
  destruct (differing_channel p q Hpq) as (i & Hi & Hdiff).
  destruct (block_stats_min_max px i Hne Hbytes) as [[L1 _] [U1 _]].
  pose proof (L1 p Hp). pose proof (L1 q Hq).
  pose proof (U1 p Hp). pose proof (U1 q Hq).
  destruct (split_bits_spec px Hne Hbytes Hlen)
    as (lo & hi & _ & Hlo & Hhi & Hbest & Hv & _ & Hbits).
  assert (Hrange : 0 < hi - lo).
  { specialize (Hbest i _ _ Hi (proj1 (block_stats_min_max px i Hne Hbytes))
                       (proj2 (block_stats_min_max px i Hne Hbytes))).
    lia. }
  assert (Hq2 : 0 <= Z.quot (hi - lo) 2 < hi - lo).
  { rewrite Z.quot_div_nonneg by lia. split.
    - apply Z.div_pos; lia.
    - apply Z.div_lt_upper_bound; lia. }
  destruct Hhi as [_ (pmax & Hmax & Emax)].
  destruct Hlo as [_ (pmin & Hmin & Emin)].
  destruct (In_nth px pmax black Hmax) as (k1 & Hk1 & E1).
  destruct (In_nth px pmin black Hmin) as (k0 & Hk0 & E0).
  rewrite Hlen in Hk1, Hk0.
  exists k1, k0. split; [exact Hk1|]. split; [exact Hk0|].
  rewrite (Hbits k1 Hk1), (Hbits k0 Hk0), E1, E0, Emax, Emin, Hv.
  split; [rewrite Z.gtb_ltb; apply Z.ltb_lt; lia
         | rewrite Z.gtb_ltb; apply Z.ltb_ge; lia].
Qed.

(** X19: in split mode the block has at least two different pixel colours,
    and the mask has a set bit and a clear bit: a pixel that reaches the
    maximum of the chosen channel is above the threshold and one that
    reaches its minimum is not.  The mask is neither [0] nor
    [0xffffffff]. *)
Theorem split_mask_not_uniform image x0 y0 :
  block_direct (block_pixels image x0 y0) = false ->
  (exists p q, In p (block_pixels image x0 y0) /\
               In q (block_pixels image x0 y0) /\ p <> q) /\
  (exists k1 k0, (k1 < 32)%nat /\ (k0 < 32)%nat /\
     Z.testbit (block_bits (block_pixels image x0 y0)) (31 - Z.of_nat k1) = true
     /\
     Z.testbit (block_bits (block_pixels image x0 y0)) (31 - Z.of_nat k0)
     = false) /\
  block_bits (block_pixels image x0 y0) <> 0 /\
  block_bits (block_pixels image x0 y0) <> 0xffffffff.
Proof.
  intros Hsplit.
  pose proof (block_pixels_nonempty image x0 y0) as Hne.
  pose proof (block_pixels_byte_range image x0 y0) as Hbytes.
  pose proof (block_pixels_length image x0 y0) as Hlen.
  destruct (split_bits_both _ Hne Hbytes Hlen Hsplit)
    as (k1 & k0 & Hk1 & Hk0 & T1 & T0).
  unfold block_bits. rewrite Hsplit.
  split; [apply split_mode_two_colors; assumption|].
  split; [exists k1, k0; repeat split; assumption|]. split.
  - intros E. rewrite E, Z.bits_0 in T1. discriminate T1.
  - intros E. rewrite E in T0. change 0xffffffff with (Z.ones 32) in T0.
    rewrite Z.ones_spec_low in T0 by lia. discriminate T0.
Qed.

Lemma split_mask_not_uniform_witness :
  block_direct (block_pixels gradient_image 0 0) = false /\
  (exists p q, In p (block_pixels gradient_image 0 0) /\
               In q (block_pixels gradient_image 0 0) /\ p <> q) /\
  (exists k1 k0, (k1 < 32)%nat /\ (k0 < 32)%nat /\
     Z.testbit (block_bits (block_pixels gradient_image 0 0))
               (31 - Z.of_nat k1) = true
     /\
     Z.testbit (block_bits (block_pixels gradient_image 0 0))
               (31 - Z.of_nat k0) = false) /\
  block_bits (block_pixels gradient_image 0 0) <> 0 /\
  block_bits (block_pixels gradient_image 0 0) <> 0xffffffff.
Proof.
  assert (H : block_direct (block_pixels gradient_image 0 0) = false)
    by (vm_compute; reflexivity).
  split; [exact H|]. apply (split_mask_not_uniform gradient_image 0 0 H).
Defined.
